(** * Compatibility retrieval engine of the outfit recommender

    A shallow embedding of [app.py]: the feature normalisation
    ([normalize_features]) and the per-category top-K cosine search
    ([find_compatible_items]).

    Numbers.  The search only adds, multiplies and compares scores, so
    it is embedded over exact rationals ([Q]); the normalisation takes
    square roots, so it is embedded over the reals ([R]).  Rounding of
    machine floats is not modelled, and no theorem below rests on the
    exactness of a product, a sum or a square root: what is proved of
    the search holds for the scores as they are handed to
    [torch.topk], and what is proved of the normalisation concerns
    rows of norm zero, on which float arithmetic is exact.

    Library calls.  [torch.topk] is a parameter of the search,
    constrained by what its documentation promises ([topk_contract]);
    two executable selections that meet the contract are given, one
    breaking ties towards the lower position and one towards the
    higher.  [sklearn.preprocessing.normalize] is embedded with its
    guard on degenerate norms ([handle_zeros_in_scale]). *)

From Stdlib Require Import String.
From Stdlib Require Import List ZArith QArith Bool Arith Lia Psatz.
From Stdlib Require Import Sorting.Sorted Sorting.Permutation.
From Stdlib Require Import Reals.
Import ListNotations.

Local Open Scope string_scope.
Local Open Scope Z_scope.
Local Open Scope nat_scope.

(** ** Exceptions and the script monad *)

(** The Python exceptions the embedded code can raise. *)
Inductive exn : Type :=
| RuntimeError (msg : string)
| IndexError
| ValueError (msg : string).

(** What the Streamlit front end has been asked to show. *)
Inductive ui_event : Type :=
| Warning (msg : string).

(** Module-level state read or written by [find_compatible_items]: the
    global [classes] and the Streamlit output. *)
Record app_state : Type := mkState {
  classes : list string;
  st_log : list ui_event
}.

(** A computation either raises or returns, and threads the state. *)
Definition M (A : Type) : Type := app_state -> (exn + A) * app_state.

Definition ret {A} (a : A) : M A := fun s => (inr a, s).

Definition raise {A} (e : exn) : M A := fun s => (inl e, s).

Definition bind {A B} (m : M A) (k : A -> M B) : M B :=
  fun s =>
    match m s with
    | (inl e, s') => (inl e, s')
    | (inr a, s') => k a s'
    end.

Definition lift {A} (r : exn + A) : M A := fun s => (r, s).

Definition get_classes : M (list string) := fun s => (inr (classes s), s).

Definition st_warning (msg : string) : M unit :=
  fun s => (inr tt, mkState (classes s) (st_log s ++ [Warning msg])).

Declare Scope script_scope.
Delimit Scope script_scope with script.
Notation "x <- m ;; k" := (bind m (fun x => k))
  (at level 61, m at next level, right associativity) : script_scope.
Notation "m ;;; k" := (bind m (fun _ => k))
  (at level 61, right associativity) : script_scope.

(** Binding in the pure error layer (no state). *)
Definition ebind {A B} (r : exn + A) (k : A -> exn + B) : exn + B :=
  match r with
  | inl e => inl e
  | inr a => k a
  end.

Declare Scope exn_scope.
Delimit Scope exn_scope with exn.
Notation "x <-- r ;; k" := (ebind r (fun x => k))
  (at level 61, r at next level, right associativity) : exn_scope.

(** ** Python lists, dicts and tensors *)

(** [x in l] on a list of strings. *)
Definition contains (l : list string) (x : string) : bool :=
  existsb (String.eqb x) l.

(** [l.index(x)]: position of the first occurrence.  Python raises
    [ValueError] when [x] is absent; every call below is guarded by
    [contains], and the model returns [length l] in that case. *)
Fixpoint index (l : list string) (x : string) : nat :=
  match l with
  | [] => 0
  | y :: l' => if String.eqb x y then 0 else S (index l' x)
  end.

(** [l[i]] for a non-negative [i]. *)
Definition getitem {A} (l : list A) (i : nat) : exn + A :=
  match nth_error l i with
  | Some a => inr a
  | None => inl IndexError
  end.

(** [[l[i] for i in idxs]], also the tensor indexing [t[idxs]]. *)
Fixpoint gather {A} (l : list A) (idxs : list nat) : exn + list A :=
  match idxs with
  | [] => inr []
  | i :: idxs' =>
      (a <-- getitem l i ;;
       rest <-- gather l idxs' ;;
       inr (a :: rest))%exn
  end.

(** A Python dict from category name to item paths, in insertion
    order.  Assigning to an existing key replaces its value in place. *)
Definition dict : Type := list (string * list string).

Fixpoint dict_set (d : dict) (k : string) (v : list string) : dict :=
  match d with
  | [] => [(k, v)]
  | (k', v') :: d' =>
      if String.eqb k k' then (k, v) :: d' else (k', v') :: dict_set d' k v
  end.

Fixpoint dict_get (d : dict) (k : string) : option (list string) :=
  match d with
  | [] => None
  | (k', v') :: d' => if String.eqb k k' then Some v' else dict_get d' k
  end.

(** A two-dimensional tensor of shape [(length rows, ncols)]. *)
Record tensor : Type := mkTensor {
  ncols : nat;
  rows : list (list Q)
}.


(** Dot product of two vectors. *)
Fixpoint dot (u v : list Q) : Q :=
  match u, v with
  | x :: u', y :: v' => (x * y + dot u' v')%Q
  | _, _ => 0%Q
  end.

(** [torch.matmul(query, feats.T).squeeze(0)] for a query of shape
    [(1, length query)]: one score per row, or torch's shape error. *)
Definition matmul_T (query : list Q) (feats : tensor) : exn + list Q :=
  if Nat.eqb (length query) (ncols feats)
  then inr (map (dot query) (rows feats))
  else inl (RuntimeError "mat1 and mat2 shapes cannot be multiplied").

(** The scores a successful [matmul_T] returns. *)
Definition similarities (query : list Q) (feats : tensor) : list Q :=
  map (dot query) (rows feats).

(** [[i for i, label in enumerate(labels) if label == cat_idx]], with
    the enumeration starting at [start]. *)
Fixpoint positions_from (start : nat) (labels : list nat) (cat_idx : nat)
  : list nat :=
  match labels with
  | [] => []
  | label :: labels' =>
      if Nat.eqb label cat_idx
      then start :: positions_from (S start) labels' cat_idx
      else positions_from (S start) labels' cat_idx
  end.

Definition positions (labels : list nat) (cat_idx : nat) : list nat :=
  positions_from 0 labels cat_idx.

(** ** torch.topk *)

(** The type of [torch.topk] on a one-dimensional tensor: the selected
    values and their positions. *)
Definition topk_fn : Type := list Q -> nat -> list Q * list nat.

(** Scores read along a list of positions. *)
Definition score_at (xs : list Q) (i : nat) : Q := nth i xs 0%Q.

(** Non-increasing scores along a list of positions. *)
Definition descending (xs : list Q) (idxs : list nat) : Prop :=
  forall a b, a < b -> b < length idxs ->
    (score_at xs (nth b idxs 0%nat) <= score_at xs (nth a idxs 0%nat))%Q.

(** Equal scores listed by ascending position. *)
Definition ties_ascending (xs : list Q) (idxs : list nat) : Prop :=
  forall a b, a < b -> b < length idxs ->
    (score_at xs (nth a idxs 0%nat) == score_at xs (nth b idxs 0%nat))%Q ->
    nth a idxs 0 < nth b idxs 0.

(** What the documentation of [torch.topk] promises for [k] within the
    size of the input: [k] distinct positions holding the [k] largest
    values, listed in sorted (descending) order.  Nothing is promised
    about the order of equal values. *)
Definition topk_contract (topk : topk_fn) : Prop :=
  forall xs k, k <= length xs ->
    let '(vals, idxs) := topk xs k in
    length idxs = k /\
    NoDup idxs /\
    Forall (fun i => i < length xs) idxs /\
    vals = map (score_at xs) idxs /\
    descending xs idxs /\
    (forall i j, In i idxs -> j < length xs -> ~ In j idxs ->
       (score_at xs j <= score_at xs i)%Q).

(** The call as the script makes it, with Python's integer [k]:
    torch rejects a [k] outside [0 .. size]. *)
Definition torch_topk (topk : topk_fn) (xs : list Q) (k : Z)
  : exn + (list Q * list nat) :=
  if (k <? 0)%Z || (Z.of_nat (length xs) <? k)%Z
  then inl (RuntimeError "selected index k out of range")
  else inr (topk xs (Z.to_nat k)).

(** ** The search: [find_compatible_items] *)

(** [[classes.index(cat) for cat in target_categories if cat in classes]] *)
Fixpoint resolve (cls : list string) (target_categories : list string)
  : list nat :=
  match target_categories with
  | [] => []
  | cat :: cats =>
      if contains cls cat
      then index cls cat :: resolve cls cats
      else resolve cls cats
  end.

(** One turn of the loop up to [topk_original_indices]: [None] stands
    for [continue] (no item carries the label). *)
Definition rank_category (topk : topk_fn) (similarities : list Q)
    (all_labels : list nat) (top_k : Z) (cat_idx : nat)
  : exn + option (list nat) :=
  let cat_item_indices := positions all_labels cat_idx in
  match cat_item_indices with
  | [] => inr None
  | _ :: _ =>
      (cat_similarities <-- gather similarities cat_item_indices ;;
       let topk_n := Z.min top_k (Z.of_nat (length cat_similarities)) in
       topk_result <-- torch_topk topk cat_similarities topk_n ;;
       let topk_indices := snd topk_result in
       topk_original_indices <-- gather cat_item_indices topk_indices ;;
       inr (Some topk_original_indices))%exn
  end.

(** The loop over [target_indices], threading the dict. *)
Fixpoint for_each_category (topk : topk_fn) (cls : list string)
    (similarities : list Q) (all_labels : list nat)
    (all_image_paths : list string) (top_k : Z)
    (target_indices : list nat) (compatibility : dict) : exn + dict :=
  match target_indices with
  | [] => inr compatibility
  | cat_idx :: rest =>
      (ranked <-- rank_category topk similarities all_labels top_k cat_idx ;;
       match ranked with
       | None =>
           for_each_category topk cls similarities all_labels
             all_image_paths top_k rest compatibility
       | Some topk_original_indices =>
           paths <-- gather all_image_paths topk_original_indices ;;
           name <-- getitem cls cat_idx ;;
           for_each_category topk cls similarities all_labels
             all_image_paths top_k rest (dict_set compatibility name paths)
       end)%exn
  end.

Definition no_valid_categories : string :=
  "No valid target categories found. Please check the category names and their cases.".

Definition find_compatible_items (topk : topk_fn) (query_feature : list Q)
    (all_features : tensor) (all_labels : list nat)
    (all_image_paths : list string) (target_categories : list string)
    (top_k : Z) : M dict :=
  (cls <- get_classes ;;
   let compatibility : dict := [] in
   let target_indices := resolve cls target_categories in
   match target_indices with
   | [] => st_warning no_valid_categories ;;; ret compatibility
   | _ :: _ =>
       similarities <- lift (matmul_T query_feature all_features) ;;
       lift (for_each_category topk cls similarities all_labels
               all_image_paths top_k target_indices compatibility)
   end)%script.

(** ** Two executable selections for [torch.topk] *)

(** [(value, position)] pairs, as torch's CPU kernel queues them. *)
Fixpoint enumerate_from (start : nat) (xs : list Q) : list (Q * nat) :=
  match xs with
  | [] => []
  | x :: xs' => (x, start) :: enumerate_from (S start) xs'
  end.

(** Insert [x] in front of the first element that [before] lets it
    overtake. *)
Fixpoint insert_by (before : Q -> Q -> bool) (x : Q * nat)
    (l : list (Q * nat)) : list (Q * nat) :=
  match l with
  | [] => [x]
  | y :: l' =>
      if before (fst x) (fst y) then x :: y :: l'
      else y :: insert_by before x l'
  end.

Definition sort_by (before : Q -> Q -> bool) (l : list (Q * nat))
  : list (Q * nat) :=
  fold_right (insert_by before) [] l.

Definition topk_by (before : Q -> Q -> bool) : topk_fn :=
  fun xs k =>
    let queue := firstn k (sort_by before (enumerate_from 0 xs)) in
    (map fst queue, map snd queue).

(** Equal values are listed by ascending position. *)
Definition topk_low : topk_fn := topk_by (fun x y => Qle_bool y x).

(** Equal values are listed by descending position. *)
Definition topk_high : topk_fn := topk_by (fun x y => negb (Qle_bool x y)).

(** Order of the queue after sorting: larger values first. *)
Definition above (x y : Q * nat) : Prop := (fst y <= fst x)%Q.

(** ** The normalisation: [normalize_features] *)

Module Normalize.

Local Open Scope R_scope.

(** Sum of the squares of a row. *)
Fixpoint sum_squares (r : list R) : R :=
  match r with
  | [] => 0
  | x :: r' => x * x + sum_squares r'
  end.

(** L2 norm of a row ([row_norms] of scikit-learn, one row). *)
Definition row_norm (r : list R) : R := sqrt (sum_squares r).

(** scikit-learn's [_handle_zeros_in_scale] on an array of norms: a
    norm below ten machine epsilons is replaced by one, so that the
    division leaves such a row as it is.  [eps] is the machine epsilon
    of the array's dtype. *)
Definition handle_zeros_in_scale (eps : R) (scale : list R) : list R :=
  map (fun s => if Rlt_dec s (10 * eps) then 1 else s) scale.

(** scikit-learn's [check_array] with its defaults: at least one
    sample and one feature. *)
Definition check_array (X : list (list R)) : exn + list (list R) :=
  match X with
  | [] => inl (ValueError "Found array with 0 sample(s)")
  | [] :: _ => inl (ValueError "Found array with 0 feature(s)")
  | (_ :: _) :: _ => inr X
  end.

(** [X /= norms[:, None]] *)
Fixpoint divide_rows (X : list (list R)) (norms : list R) : list (list R) :=
  match X, norms with
  | r :: X', n :: norms' => map (fun x => x / n) r :: divide_rows X' norms'
  | _, _ => []
  end.

(** [sklearn.preprocessing.normalize(X, axis=1)] with the default
    [norm="l2"]. *)
Definition normalize (eps : R) (X : list (list R)) : exn + list (list R) :=
  (X <-- check_array X ;;
   let norms := map row_norm X in
   let norms := handle_zeros_in_scale eps norms in
   inr (divide_rows X norms))%exn.

(** The body of [normalize_features], as its first call runs it; the
    cache of [st.cache_resource] around it is not modelled. *)
Definition normalize_features (eps : R) (all_features : list (list R))
  : exn + list (list R) :=
  normalize eps all_features.

(** The scale a row is divided by. *)
Definition scale_of (eps : R) (r : list R) : R :=
  if Rlt_dec (row_norm r) (10 * eps) then 1 else row_norm r.

(** The epsilon of 32-bit floats, the dtype of torch features. *)
Definition float32_eps : R := / 8388608.

(** C3 as stated: a database with a zero-norm vector is rejected. *)
Definition degenerate_rejected (eps : R) : Prop :=
  forall X r, In r X -> row_norm r = 0 ->
    exists e, normalize_features eps X = inl e.


End Normalize.

(** ** The claims as stated, where the code departs from them *)

(** The result is read back as rows of the store through the paths it
    lists. *)
Definition paths_of (all_image_paths : list string) (rws : list nat)
    (ps : list string) : Prop :=
  Forall2 (fun r p => nth_error all_image_paths r = Some p) rws ps.

(** C1 as stated: a score can be read off every returned element, that
    is, some decoder maps each returned element to the similarity of
    the row it stands for, whatever the query. *)
Definition carries_scores (topk : topk_fn) (feats : tensor)
    (labels : list nat) (paths : list string) (cls : list string) : Prop :=
  exists score_of : string -> Q,
  forall q cats top_k res s',
    find_compatible_items topk q feats labels paths cats top_k
      (mkState cls []) = (inr res, s') ->
    forall n ps p r, In (n, ps) res -> In p ps ->
      nth_error paths r = Some p ->
      (score_of p == score_at (similarities q feats) r)%Q.

(** C2 as stated, for a given [torch.topk]: the rows selected for
    every entry ([topk_original_indices]) have non-increasing scores,
    equal scores by ascending row. *)
Definition ranked_ties_ascending (topk : topk_fn) : Prop :=
  forall q feats labels paths cats top_k s res s' n ps,
    find_compatible_items topk q feats labels paths cats top_k s
      = (inr res, s') ->
    In (n, ps) res ->
    exists rws,
      rank_category topk (similarities q feats) labels top_k
        (index (classes s) n) = inr (Some rws) /\
      paths_of paths rws ps /\
      descending (similarities q feats) rws /\
      ties_ascending (similarities q feats) rws.

(** C6 as stated: a query whose dimension differs from the store's
    makes the search fail, leaving the state as it was. *)
Definition dimension_checked (topk : topk_fn) : Prop :=
  forall q feats labels paths cats top_k s,
    length q <> ncols feats ->
    exists e,
      find_compatible_items topk q feats labels paths cats top_k s
        = (inl e, s).

(** C8 as stated: a call gives the same outcome when repeated and
    leaves the module state, Streamlit output included, as it was. *)
Definition search_is_pure (topk : topk_fn) : Prop :=
  forall q feats labels paths cats top_k s,
    let run := find_compatible_items topk q feats labels paths cats top_k in
    fst (run (snd (run s))) = fst (run s) /\ snd (run s) = s.


(** ** Running the search on a small store *)

Module Demo.

Local Open Scope Q_scope.

Definition demo_classes : list string := ["tops"; "pants"].

Definition demo_state : app_state := mkState demo_classes [].

(** Items a, b (tops) and c (pants), unit vectors. *)
Definition demo_features : tensor :=
  mkTensor 2 [[1; 0]; [3 # 5; 4 # 5]; [0; 1]].

Definition demo_labels : list nat := [0; 0; 1]%nat.

Definition demo_paths : list string := ["a.jpg"; "b.jpg"; "c.jpg"].

(** Two items holding the same vector, both tops. *)
Definition twin_features : tensor := mkTensor 2 [[1; 0]; [1; 0]].

Definition twin_labels : list nat := [0; 0]%nat.

Definition twin_paths : list string := ["a.jpg"; "b.jpg"].

(** Four items holding the same vector, all tops. *)
Definition quad_features : tensor :=
  mkTensor 2 [[1; 0]; [1; 0]; [1; 0]; [1; 0]].

Definition quad_labels : list nat := [0; 0; 0; 0]%nat.

Definition quad_paths : list string :=
  ["a.jpg"; "b.jpg"; "c.jpg"; "d.jpg"].

End Demo.

(** ** What one call stores for one category *)

(** The value the loop assigns for category [c]: the paths of the
    selected rows, or nothing when the turn is skipped. *)
Definition category_entry (topk : topk_fn) (similarities : list Q)
    (all_labels : list nat) (all_image_paths : list string) (top_k : Z)
    (c : nat) : option (list string) :=
  match rank_category topk similarities all_labels top_k c with
  | inr (Some topk_original_indices) =>
      match gather all_image_paths topk_original_indices with
      | inr paths => Some paths
      | inl _ => None
      end
  | _ => None
  end.

(** Keys of a dict after one more assignment: a new key goes last, a
    known key keeps its place. *)
Definition add_key (keys : list string) (k : string) : list string :=
  if contains keys k then keys else keys ++ [k].

(** A requested name that is in [classes] and labels at least one
    item. *)
Definition served (cls : list string) (all_labels : list nat)
    (cat : string) : bool :=
  contains cls cat && existsb (Nat.eqb (index cls cat)) all_labels.

(** ** The display: [display_compatibility] *)

(** Streamlit rejects a call it cannot lay out. *)
Inductive st_exn : Type :=
| StreamlitAPIException (msg : string).

(** What [display_compatibility] puts on the page.  An image or a
    note is placed in the column [col] of the last [Columns]. *)
Inductive element : Type :=
| Info (msg : string)
| Subheader (count : nat) (category : string)
| Columns (n : nat)
| Image (col : nat) (path : string) (width : nat)
| Write (col : nat) (msg : string).

Definition no_compatible_items : string :=
  "No compatible items found for the selected categories.".

Definition image_not_found : string :=
  "❌ Image not found or cannot be opened.".

Definition invalid_column_spec : string :=
  "The input argument to st.columns must be either a positive integer or a list of positive numeric weights.".

(** [max(len(items) for items in compatible_items.values())] *)
Fixpoint max_len (values : list (list string)) : nat :=
  match values with
  | [] => 0
  | items :: values' => Nat.max (length items) (max_len values')
  end.

(** The inner loop: one image per column; an image that cannot be
    opened leaves a note instead ([try ... except Exception]).
    [can_open] tells which paths [Image.open] accepts. *)
Fixpoint show_images (can_open : string -> bool) (image_width : nat)
    (idx : nat) (images : list string) : list element :=
  match images with
  | [] => []
  | img_path :: images' =>
      (if can_open img_path then Image idx img_path image_width
       else Write idx image_not_found)
      :: show_images can_open image_width (S idx) images'
  end.

(** The outer loop.  [st.columns(0)] raises, after the subheader of
    that category was shown. *)
Fixpoint show_categories (can_open : string -> bool) (image_width : nat)
    (compatible_items : dict) : (st_exn + unit) * list element :=
  match compatible_items with
  | [] => (inr tt, [])
  | (category, images) :: rest =>
      match images with
      | [] =>
          (inl (StreamlitAPIException invalid_column_spec),
           [Subheader 0 category])
      | _ :: _ =>
          let '(outcome, shown) :=
            show_categories can_open image_width rest in
          (outcome,
           Subheader (length images) category
           :: Columns (length images)
           :: show_images can_open image_width 0 images ++ shown)
      end
  end.

Definition display_compatibility (can_open : string -> bool)
    (compatible_items : dict) (image_width : nat)
  : (st_exn + unit) * list element :=
  let num_categories := length compatible_items in
  let num_items :=
    match compatible_items with
    | [] => 0
    | _ :: _ => max_len (map snd compatible_items)
    end in
  if Nat.eqb num_categories 0 || Nat.eqb num_items 0
  then (inr tt, [Info no_compatible_items])
  else show_categories can_open image_width compatible_items.

(** The page of one category whose images are all listed. *)
Definition category_block (can_open : string -> bool) (image_width : nat)
    (entry : string * list string) : list element :=
  Subheader (length (snd entry)) (fst entry)
  :: Columns (length (snd entry))
  :: show_images can_open image_width 0 (snd entry).

(** ** More inputs for the examples *)

Module Gallery.

Local Open Scope Q_scope.

(** Which image files exist: all but b.jpg. *)
Definition on_disk (path : string) : bool := negb (String.eqb path "b.jpg").

(** tops, pants and hats; no item is a hat. *)
Definition gallery_classes : list string := ["tops"; "pants"; "hats"].

Definition gallery_state : app_state := mkState gallery_classes [].

Definition gallery_features : tensor :=
  mkTensor 2 [[1; 0]; [3 # 5; 4 # 5]; [0; 1]; [4 # 5; 3 # 5]].

Definition gallery_labels : list nat := [0; 0; 1; 1]%nat.

Definition gallery_paths : list string :=
  ["a.jpg"; "b.jpg"; "c.jpg"; "d.jpg"].

End Gallery.

(** * Properties *)

(** ** The scenarios of the specification *)

Module DemoFacts.

Import Demo.
Local Open Scope Q_scope.

Example scenario_twins :
  find_compatible_items topk_low [1; 0] twin_features twin_labels twin_paths
    ["tops"] 5 demo_state
  = (inr [("tops", ["a.jpg"; "b.jpg"])], demo_state).
Proof. reflexivity. Qed.

Example scenario_quads_high :
  find_compatible_items topk_high [1; 0] quad_features quad_labels quad_paths
    ["tops"] 5 demo_state
  = (inr [("tops", ["d.jpg"; "c.jpg"; "b.jpg"; "a.jpg"])], demo_state).
Proof. reflexivity. Qed.

Example scenario_tops :
  find_compatible_items topk_low [1; 0] demo_features demo_labels demo_paths
    ["tops"] 5 demo_state
  = (inr [("tops", ["a.jpg"; "b.jpg"])], demo_state).
Proof. reflexivity. Qed.

Example scenario_top1 :
  find_compatible_items topk_low [1; 0] demo_features demo_labels demo_paths
    ["tops"; "pants"] 1 demo_state
  = (inr [("tops", ["a.jpg"]); ("pants", ["c.jpg"])], demo_state).
Proof. reflexivity. Qed.

Example scenario_shoes :
  find_compatible_items topk_low [1; 0] demo_features demo_labels demo_paths
    ["shoes"] 5 demo_state
  = (inr [], mkState demo_classes [Warning no_valid_categories]).
Proof. reflexivity. Qed.

End DemoFacts.

(** ** Lists, gathering and positions *)

Lemma getitem_inr {A} (l : list A) i a :
  getitem l i = inr a <-> nth_error l i = Some a.
Proof.
  unfold getitem. destruct (nth_error l i); split; intros H;
    inversion H; reflexivity.
Qed.

Lemma gather_inr {A} (l : list A) idxs vs :
  gather l idxs = inr vs ->
  Forall2 (fun i v => nth_error l i = Some v) idxs vs.
Proof.
  revert vs. induction idxs as [|i idxs IH]; intros vs H; simpl in H.
  - inversion H. constructor.
  - unfold ebind in H.
    destruct (getitem l i) as [e|a] eqn:Ha; [discriminate|].
    destruct (gather l idxs) as [e|rest]; [discriminate|].
    inversion H; subst. constructor.
    + now apply getitem_inr.
    + now apply IH.
Qed.

Lemma gather_total {A} (l : list A) idxs :
  Forall (fun i => i < length l) idxs -> exists vs, gather l idxs = inr vs.
Proof.
  induction 1 as [|i idxs Hi _ [vs IH]]; simpl.
  - now exists [].
  - destruct (nth_error l i) as [a|] eqn:Ha.
    + exists (a :: vs). unfold getitem. rewrite Ha. simpl. now rewrite IH.
    + apply nth_error_None in Ha. lia.
Qed.

Lemma Forall2_length_eq {A B} (P : A -> B -> Prop) l1 l2 :
  Forall2 P l1 l2 -> length l1 = length l2.
Proof. induction 1; simpl; congruence. Qed.

Lemma Forall2_nth {A B} (P : A -> B -> Prop) l1 l2 d1 d2 n :
  Forall2 P l1 l2 -> n < length l1 -> P (nth n l1 d1) (nth n l2 d2).
Proof.
  intros H. revert n. induction H; intros [|n] Hn; simpl in *;
    try lia; auto. apply IHForall2. lia.
Qed.

Lemma positions_from_In start labels c i :
  In i (positions_from start labels c) <->
  start <= i /\ nth_error labels (i - start) = Some c.
Proof.
  revert start. induction labels as [|l labels IH]; intros start; simpl.
  - split; [tauto|]. intros [_ H]. destruct (i - start); discriminate.
  - assert (Hstep : In i (positions_from (S start) labels c) <->
              start < i /\ nth_error (l :: labels) (i - start) = Some c).
    { rewrite IH. split; intros [H1 H2]; split; try lia.
      - replace (i - start) with (S (i - S start)) by lia. exact H2.
      - replace (i - start) with (S (i - S start)) in H2 by lia. exact H2. }
    destruct (Nat.eqb_spec l c) as [->|Hne]; simpl; rewrite Hstep.
    + split.
      * intros [<-|[H1 H2]]; [|split; [lia|exact H2]].
        split; [lia|]. now rewrite Nat.sub_diag.
      * intros [H1 H2]. destruct (Nat.eq_dec start i) as [->|Hn]; [now left|].
        right. split; [lia|exact H2].
    + split; [intros [H1 H2]; split; [lia|exact H2]|].
      intros [H1 H2]. split; [|exact H2].
      destruct (Nat.eq_dec start i) as [->|Hn]; [|lia].
      rewrite Nat.sub_diag in H2. simpl in H2. congruence.
Qed.

Lemma positions_In labels c i :
  In i (positions labels c) <-> nth_error labels i = Some c.
Proof.
  unfold positions. rewrite positions_from_In, Nat.sub_0_r.
  split; [tauto|]. intros H; split; [lia|exact H].
Qed.

Lemma positions_from_NoDup start labels c :
  NoDup (positions_from start labels c).
Proof.
  revert start. induction labels as [|l labels IH]; intros start; simpl.
  - constructor.
  - destruct (Nat.eqb l c); [|apply IH].
    constructor; [|apply IH].
    rewrite positions_from_In. lia.
Qed.

Lemma positions_from_length start labels c :
  length (positions_from start labels c) = count_occ Nat.eq_dec labels c.
Proof.
  revert start. induction labels as [|l labels IH]; intros start; simpl.
  - reflexivity.
  - destruct (Nat.eqb_spec l c) as [->|Hne].
    + destruct (Nat.eq_dec c c); [|congruence]. simpl. now rewrite IH.
    + destruct (Nat.eq_dec l c); [congruence|]. apply IH.
Qed.

Lemma NoDup_firstn {A} (l : list A) k : NoDup l -> NoDup (firstn k l).
Proof.
  intros H. rewrite <- (firstn_skipn k l) in H.
  now apply NoDup_app_remove_r in H.
Qed.

Lemma StronglySorted_nth {A} (R : A -> A -> Prop) l d a b :
  StronglySorted R l -> a < b -> b < length l -> R (nth a l d) (nth b l d).
Proof.
  intros H. revert a b. induction H as [|x l Hs IH Hall];
    intros a b Hab Hb; simpl in Hb; [lia|].
  destruct b as [|b]; [lia|]. destruct a as [|a]; simpl.
  - rewrite Forall_forall in Hall. apply Hall, nth_In. lia.
  - apply IH; lia.
Qed.

Lemma StronglySorted_firstn {A} (R : A -> A -> Prop) l k :
  StronglySorted R l -> StronglySorted R (firstn k l).
Proof.
  intros H. revert k. induction H as [|x l Hs IH Hall]; intros [|k]; simpl;
    try constructor; auto.
  rewrite Forall_forall in *. intros y Hy. apply Hall.
  rewrite <- (firstn_skipn k l). apply in_or_app. now left.
Qed.

Lemma StronglySorted_split {A} (R : A -> A -> Prop) l k x y :
  StronglySorted R l -> In x (firstn k l) -> In y (skipn k l) -> R x y.
Proof.
  intros H. revert k. induction H as [|z l Hs IH Hall]; intros k Hx Hy.
  - destruct k; simpl in Hx; contradiction.
  - destruct k as [|k]; simpl in *; [contradiction|].
    destruct Hx as [<-|Hx].
    + rewrite Forall_forall in Hall. apply Hall.
      rewrite <- (firstn_skipn k l). apply in_or_app. now right.
    + now apply (IH k).
Qed.

(** ** The two selections meet the contract of [torch.topk] *)

Section Selection.

Variable before : Q -> Q -> bool.
Hypothesis before_true : forall x y, before x y = true -> (y <= x)%Q.
Hypothesis before_false : forall x y, before x y = false -> (x <= y)%Q.

Lemma insert_by_perm x l : Permutation (insert_by before x l) (x :: l).
Proof.
  induction l as [|y l IH]; simpl; [reflexivity|].
  destruct (before (fst x) (fst y)); [reflexivity|].
  rewrite IH. apply perm_swap.
Qed.

Lemma sort_by_perm l : Permutation (sort_by before l) l.
Proof.
  induction l as [|x l IH]; simpl; [reflexivity|].
  rewrite insert_by_perm. now constructor.
Qed.

Lemma insert_by_sorted x l :
  StronglySorted above l -> StronglySorted above (insert_by before x l).
Proof.
  induction 1 as [|y l Hs IH Hall]; simpl.
  - constructor; constructor.
  - destruct (before (fst x) (fst y)) eqn:Hb.
    + apply before_true in Hb. constructor; [now constructor|].
      constructor; [exact Hb|].
      rewrite Forall_forall in *. intros z Hz. unfold above in *.
      eapply Qle_trans; [apply Hall, Hz|exact Hb].
    + apply before_false in Hb. constructor; [exact IH|].
      rewrite Forall_forall in *. intros z Hz.
      apply (Permutation_in _ (insert_by_perm x l)) in Hz.
      destruct Hz as [<-|Hz]; [exact Hb|now apply Hall].
Qed.

Lemma sort_by_sorted l : StronglySorted above (sort_by before l).
Proof.
  induction l as [|x l IH]; simpl; [constructor|].
  now apply insert_by_sorted.
Qed.

Lemma enumerate_from_snd start xs :
  map snd (enumerate_from start xs) = seq start (length xs).
Proof.
  revert start. induction xs as [|x xs IH]; intros start; simpl;
    [reflexivity|]. now rewrite IH.
Qed.

Lemma enumerate_from_In start xs v i :
  In (v, i) (enumerate_from start xs) <->
  start <= i /\ i < start + length xs /\ v = score_at xs (i - start).
Proof.
  revert start. induction xs as [|x xs IH]; intros start; simpl.
  - split; [tauto|lia].
  - rewrite IH. unfold score_at. split.
    + intros [H|(H1 & H2 & H3)].
      * inversion H; subst. rewrite Nat.sub_diag. repeat split; lia.
      * repeat split; try lia.
        replace (i - start) with (S (i - S start)) by lia. exact H3.
    + intros (H1 & H2 & H3).
      destruct (Nat.eq_dec start i) as [->|Hne].
      * left. rewrite Nat.sub_diag in H3. now subst.
      * right. repeat split; try lia.
        replace (i - start) with (S (i - S start)) in H3 by lia. exact H3.
Qed.

Lemma nth_map_snd (l : list (Q * nat)) n :
  nth n (map snd l) 0 = snd (nth n l (0%Q, 0)).
Proof. exact (map_nth snd l (0%Q, 0) n). Qed.

Lemma topk_by_contract : topk_contract (topk_by before).
Proof.
  intros xs k Hk. unfold topk_by.
  set (L := sort_by before (enumerate_from 0 xs)).
  assert (HP : Permutation L (enumerate_from 0 xs)) by apply sort_by_perm.
  assert (HS : StronglySorted above L) by apply sort_by_sorted.
  assert (Hlen : length L = length xs).
  { rewrite (Permutation_length HP), <- (length_map snd),
      enumerate_from_snd. apply length_seq. }
  assert (Hsnd : Permutation (map snd L) (seq 0 (length xs))).
  { rewrite <- enumerate_from_snd. now apply Permutation_map. }
  assert (Hval : forall p, In p L -> fst p = score_at xs (snd p)).
  { intros [v i] Hp. apply (Permutation_in _ HP) in Hp.
    apply enumerate_from_In in Hp. simpl.
    now rewrite Nat.sub_0_r in Hp. }
  assert (Hsub : forall p, In p (firstn k L) -> In p L).
  { intros p Hp. rewrite <- (firstn_skipn k L). apply in_or_app. now left. }
  repeat split.
  - rewrite length_map, length_firstn. lia.
  - rewrite <- firstn_map. apply NoDup_firstn.
    apply (Permutation_NoDup (Permutation_sym Hsnd)), seq_NoDup.
  - rewrite Forall_forall. intros i Hi. apply in_map_iff in Hi.
    destruct Hi as (p & <- & Hp).
    assert (Hin : In (snd p) (seq 0 (length xs))).
    { apply (Permutation_in _ Hsnd), in_map, Hsub, Hp. }
    apply in_seq in Hin. lia.
  - rewrite map_map. apply map_ext_in. intros p Hp. apply Hval, Hsub, Hp.
  - intros a b Hab Hb. rewrite length_map in Hb.
    rewrite !nth_map_snd.
    assert (Ha' : In (nth a (firstn k L) (0%Q, 0)) (firstn k L))
      by (apply nth_In; lia).
    assert (Hb' : In (nth b (firstn k L) (0%Q, 0)) (firstn k L))
      by (apply nth_In; lia).
    rewrite <- (Hval _ (Hsub _ Ha')), <- (Hval _ (Hsub _ Hb')).
    apply (StronglySorted_nth above (firstn k L) (0%Q, 0) a b); auto.
    now apply StronglySorted_firstn.
  - intros i j Hi Hj Hnj. apply in_map_iff in Hi.
    destruct Hi as (p & <- & Hp).
    assert (Hq : In (score_at xs j, j) L).
    { apply (Permutation_in _ (Permutation_sym HP)), enumerate_from_In.
      rewrite Nat.sub_0_r. repeat split; lia. }
    rewrite <- (firstn_skipn k L) in Hq. apply in_app_or in Hq.
    destruct Hq as [Hq|Hq].
    + exfalso. apply Hnj. apply in_map_iff. now exists (score_at xs j, j).
    + rewrite <- (Hval _ (Hsub _ Hp)).
      apply (StronglySorted_split above L k p (score_at xs j, j) HS Hp Hq).
Qed.

End Selection.

Lemma topk_low_contract : topk_contract topk_low.
Proof.
  apply topk_by_contract; intros x y H.
  - now apply Qle_bool_iff.
  - destruct (Qlt_le_dec x y) as [Hlt|Hle]; [now apply Qlt_le_weak|].
    apply Qle_bool_iff in Hle. congruence.
Qed.

Lemma topk_high_contract : topk_contract topk_high.
Proof.
  apply topk_by_contract; intros x y H.
  - apply negb_true_iff in H.
    destruct (Qlt_le_dec y x) as [Hlt|Hle]; [now apply Qlt_le_weak|].
    apply Qle_bool_iff in Hle. congruence.
  - apply negb_false_iff in H. now apply Qle_bool_iff.
Qed.

(** ** One category: what [rank_category] selects *)

Lemma Forall2_In_l {A B} (P : A -> B -> Prop) l1 l2 x :
  Forall2 P l1 l2 -> In x l1 -> exists y, In y l2 /\ P x y.
Proof.
  induction 1 as [|a b l1 l2 Hab _ IH]; simpl; [tauto|].
  intros [<-|Hx]; [exists b; auto|].
  destruct (IH Hx) as (y & Hy & Hxy). exists y; auto.
Qed.

Lemma Forall2_In_r {A B} (P : A -> B -> Prop) l1 l2 y :
  Forall2 P l1 l2 -> In y l2 -> exists x, In x l1 /\ P x y.
Proof.
  induction 1 as [|a b l1 l2 Hab _ IH]; simpl; [tauto|].
  intros [<-|Hy]; [exists a; auto|].
  destruct (IH Hy) as (x & Hx & Hxy). exists x; auto.
Qed.

Lemma gather_NoDup (P : list nat) idxs rws :
  NoDup P -> NoDup idxs ->
  Forall2 (fun i r => nth_error P i = Some r) idxs rws -> NoDup rws.
Proof.
  intros HP Hidx H. induction H as [|i r idxs rws Hir H IH]; [constructor|].
  inversion Hidx as [|? ? Hni Hnd]; subst. constructor; [|now apply IH].
  intros Hin. destruct (Forall2_In_r _ _ _ _ H Hin) as (i' & Hi' & Hi'r).
  assert (i = i').
  { apply (proj1 (NoDup_nth_error P) HP).
    - apply nth_error_Some. congruence.
    - congruence. }
  subst. contradiction.
Qed.

Lemma score_at_nth_error xs i v : nth_error xs i = Some v -> score_at xs i = v.
Proof. intros H. unfold score_at. now apply nth_error_nth. Qed.

(** What one turn of the loop selects, given the contract of
    [torch.topk]. *)
Lemma rank_category_spec topk sims labels top_k c rws :
  topk_contract topk ->
  rank_category topk sims labels top_k c = inr (Some rws) ->
  NoDup rws /\
  Forall (fun r => nth_error labels r = Some c /\ r < length sims) rws /\
  Z.of_nat (length rws)
    = Z.min top_k (Z.of_nat (count_occ Nat.eq_dec labels c)) /\
  descending sims rws /\
  (forall r j, In r rws -> nth_error labels j = Some c -> ~ In j rws ->
     (score_at sims j <= score_at sims r)%Q).
Proof.
  intros Hc H. unfold rank_category in H.
  assert (HPlen : length (positions labels c) = count_occ Nat.eq_dec labels c)
    by apply positions_from_length.
  assert (HPnd : NoDup (positions labels c)) by apply positions_from_NoDup.
  assert (HPin := positions_In labels c).
  set (P := positions labels c) in *.
  destruct P as [|p0 P0] eqn:HP; [discriminate|]. rewrite <- HP in *.
  clear HP. unfold ebind in H.
  destruct (gather sims P) as [e|cs] eqn:Hcs; [discriminate|].
  apply gather_inr in Hcs.
  assert (Hlen : length cs = length P)
    by (symmetry; eapply Forall2_length_eq; eauto).
  unfold torch_topk in H.
  destruct ((_ <? 0)%Z || _) eqn:Hrange; [discriminate|].
  apply orb_false_iff in Hrange. destruct Hrange as [Hk0 Hk1].
  apply Z.ltb_ge in Hk0, Hk1.
  set (k := Z.to_nat (Z.min top_k (Z.of_nat (length cs)))) in *.
  specialize (Hc cs k ltac:(lia)).
  destruct (topk cs k) as [vals idxs]. simpl in H.
  destruct Hc as (Hl & Hnd & Hlt & _ & Hdesc & Hmax).
  destruct (gather P idxs) as [e|rws'] eqn:Hrws; [discriminate|].
  inversion H; subst rws'. clear H. apply gather_inr in Hrws.
  assert (Hscore : forall i r, nth_error P i = Some r ->
            score_at sims r = score_at cs i).
  { intros i r Hi.
    assert (Hi' : i < length P) by (apply nth_error_Some; congruence).
    pose proof (Forall2_nth _ _ _ 0 0%Q i Hcs Hi') as Hn. simpl in Hn.
    rewrite (nth_error_nth _ _ 0 Hi) in Hn.
    now rewrite (score_at_nth_error _ _ _ Hn). }
  assert (Hrlen : length rws = length idxs)
    by (symmetry; eapply Forall2_length_eq; eauto).
  repeat split.
  - exact (gather_NoDup P idxs rws HPnd Hnd Hrws).
  - rewrite Forall_forall. intros r Hr.
    destruct (Forall2_In_r _ _ _ _ Hrws Hr) as (i & _ & Hi).
    apply nth_error_In in Hi.
    split; [now apply HPin|].
    destruct (Forall2_In_l _ _ _ _ Hcs Hi) as (v & _ & Hv).
    apply nth_error_Some. congruence.
  - rewrite Hrlen, Hl. unfold k. rewrite Hlen, HPlen in *. lia.
  - intros a b Hab Hb. rewrite Hrlen in Hb.
    assert (Ha : a < length idxs) by lia.
    pose proof (Forall2_nth _ _ _ 0 0 a Hrws Ha) as Hna.
    pose proof (Forall2_nth _ _ _ 0 0 b Hrws Hb) as Hnb.
    simpl in Hna, Hnb.
    rewrite (Hscore _ _ Hna), (Hscore _ _ Hnb). now apply Hdesc.
  - intros r j Hr Hj Hnj.
    destruct (Forall2_In_r _ _ _ _ Hrws Hr) as (i & Hi & Hir).
    apply HPin in Hj. apply In_nth_error in Hj. destruct Hj as (jp & Hjp).
    rewrite (Hscore _ _ Hir), (Hscore _ _ Hjp). apply Hmax; auto.
    + rewrite Hlen. apply nth_error_Some. congruence.
    + intros Hin. apply Hnj.
      destruct (Forall2_In_l _ _ _ _ Hrws Hin) as (r' & Hr' & Hjr').
      congruence.
Qed.

(** ** The loop and the whole search *)

Lemma contains_In cls x : contains cls x = true <-> In x cls.
Proof.
  unfold contains. rewrite existsb_exists. split.
  - intros (y & Hy & Hxy). apply String.eqb_eq in Hxy. now subst.
  - intros H. exists x. split; [exact H|apply String.eqb_refl].
Qed.

Lemma index_nth_error cls x : In x cls -> nth_error cls (index cls x) = Some x.
Proof.
  induction cls as [|y cls IH]; simpl; [tauto|]. intros H.
  destruct (String.eqb_spec x y) as [->|Hne]; [reflexivity|].
  simpl. apply IH. destruct H; congruence.
Qed.

Lemma index_first cls x c :
  nth_error cls c = Some x -> index cls x <= c.
Proof.
  revert c. induction cls as [|y cls IH]; intros [|c] H; simpl in *;
    try discriminate.
  - inversion H; subst. now rewrite String.eqb_refl.
  - destruct (String.eqb x y); [lia|]. apply IH in H. lia.
Qed.

Lemma resolve_In cls cats c :
  In c (resolve cls cats) <->
  exists cat, In cat cats /\ In cat cls /\ c = index cls cat.
Proof.
  induction cats as [|cat cats IH]; simpl.
  - split; [tauto|]. now intros (? & [] & _).
  - destruct (contains cls cat) eqn:Hc; simpl; rewrite IH.
    + apply contains_In in Hc. split.
      * intros [<-|(x & H1 & H2 & H3)]; [exists cat; auto|exists x; auto].
      * intros (x & [<-|H1] & H2 & H3); [now left|right; exists x; auto].
    + split.
      * intros (x & H1 & H2 & H3). exists x; auto.
      * intros (x & [<-|H1] & H2 & H3); [|exists x; auto].
        apply contains_In in H2. congruence.
Qed.

Lemma dict_set_In d k v n ps :
  In (n, ps) (dict_set d k v) -> (n, ps) = (k, v) \/ In (n, ps) d.
Proof.
  induction d as [|[k' v'] d IH]; simpl.
  - intros [H|[]]. now left.
  - destruct (String.eqb k k'); simpl.
    + intros [H|H]; [now left|right; now right].
    + intros [H|H]; [right; now left|].
      destruct (IH H); [now left|right; now right].
Qed.

Lemma for_each_category_entries topk cls sims labels paths top_k tis d d' :
  for_each_category topk cls sims labels paths top_k tis d = inr d' ->
  forall n ps, In (n, ps) d' ->
    In (n, ps) d \/
    exists c rws, In c tis /\ nth_error cls c = Some n /\
      rank_category topk sims labels top_k c = inr (Some rws) /\
      gather paths rws = inr ps.
Proof.
  revert d. induction tis as [|c tis IH]; intros d H n ps Hin; simpl in H.
  - inversion H; subst. now left.
  - unfold ebind in H.
    destruct (rank_category topk sims labels top_k c) as [e|[rws|]] eqn:Hr;
      [discriminate| |].
    + destruct (gather paths rws) as [e|ps'] eqn:Hg; [discriminate|].
      destruct (getitem cls c) as [e|name] eqn:Hn; [discriminate|].
      apply getitem_inr in Hn.
      destruct (IH _ H n ps Hin) as [Hd|(c' & rws' & H1 & H2)].
      * apply dict_set_In in Hd. destruct Hd as [Heq|Hd]; [|now left].
        inversion Heq; subst. right. exists c, rws. simpl. auto.
      * right. exists c', rws'. simpl. auto.
    + destruct (IH _ H n ps Hin) as [Hd|(c' & rws' & H1 & H2)];
        [now left|].
      right. exists c', rws'. simpl. auto.
Qed.

(** The two ways the search returns: the early return with a warning,
    or the loop over a non-empty [target_indices] after the scores
    were computed. *)
Lemma find_compatible_items_inr topk q feats labels paths cats top_k s res s' :
  find_compatible_items topk q feats labels paths cats top_k s
    = (inr res, s') ->
  (resolve (classes s) cats = [] /\ res = [] /\
   s' = mkState (classes s) (st_log s ++ [Warning no_valid_categories])) \/
  (resolve (classes s) cats <> [] /\ s' = s /\
   length q = ncols feats /\
   for_each_category topk (classes s) (similarities q feats) labels paths
     top_k (resolve (classes s) cats) [] = inr res).
Proof.
  unfold find_compatible_items, bind, get_classes, st_warning, ret, lift.
  intros H.
  destruct (resolve (classes s) cats) as [|c tis] eqn:Hres.
  - left. inversion H; auto.
  - right. unfold matmul_T in H.
    destruct (Nat.eqb_spec (length q) (ncols feats)) as [Hd|Hd];
      [|discriminate].
    inversion H; subst. repeat split; auto. discriminate.
Qed.

(** Every entry of a returned dict comes from one turn of the loop:
    its key is a requested name found in [classes], and its value lists
    the paths of the rows selected for that category. *)
Lemma result_entries topk q feats labels paths cats top_k s res s' :
  find_compatible_items topk q feats labels paths cats top_k s
    = (inr res, s') ->
  forall n ps, In (n, ps) res ->
    In n cats /\ In n (classes s) /\
    exists rws,
      rank_category topk (similarities q feats) labels top_k
        (index (classes s) n) = inr (Some rws) /\
      Forall2 (fun r p => nth_error paths r = Some p) rws ps.
Proof.
  intros H n ps Hin.
  apply find_compatible_items_inr in H.
  destruct H as [(_ & -> & _)|(_ & _ & _ & H)]; [destruct Hin|].
  destruct (for_each_category_entries _ _ _ _ _ _ _ _ _ H n ps Hin)
    as [[]|(c & rws & Hc & Hn & Hr & Hg)].
  apply resolve_In in Hc. destruct Hc as (cat & Hcat & Hcls & ->).
  rewrite (index_nth_error _ _ Hcls) in Hn. inversion Hn; subst.
  repeat split; auto. exists rws. split; [exact Hr|now apply gather_inr].
Qed.

(** ** Claims about the shape of the result *)

(** C1, counterexample: two queries against the demo store return the
    same entry for "pants" while the similarity of the returned item is
    0 for one and 1 for the other, so the returned elements carry no
    score. *)
Lemma C1_result_carries_no_score :
  ~ carries_scores topk_low Demo.demo_features Demo.demo_labels
      Demo.demo_paths Demo.demo_classes.
Proof.
  intros [score_of H].
  assert (H0 := H [1; 0]%Q ["pants"] 5%Z _ _ eq_refl
                  "pants" ["c.jpg"] "c.jpg" 2 (or_introl eq_refl)
                  (or_introl eq_refl) eq_refl).
  assert (H1 := H [0; 1]%Q ["pants"] 5%Z _ _ eq_refl
                  "pants" ["c.jpg"] "c.jpg" 2 (or_introl eq_refl)
                  (or_introl eq_refl) eq_refl).
  rewrite H0 in H1. vm_compute in H1. discriminate.
Qed.

(** C1, amended: each category entry of the result is an ordered
    sequence of item paths only; every element is the path of a store
    row labelled with that category. *)
Theorem C1_entries_are_item_paths
    topk q feats labels paths cats top_k s res s' n ps p :
  topk_contract topk ->
  find_compatible_items topk q feats labels paths cats top_k s
    = (inr res, s') ->
  In (n, ps) res -> In p ps ->
  exists r, nth_error paths r = Some p /\
            nth_error labels r = Some (index (classes s) n).
Proof.
  intros Hc H Hn Hp.
  destruct (result_entries _ _ _ _ _ _ _ _ _ _ H n ps Hn)
    as (_ & _ & rws & Hr & Hps).
  destruct (rank_category_spec _ _ _ _ _ _ Hc Hr) as (_ & Hl & _).
  destruct (Forall2_In_r _ _ _ _ Hps Hp) as (r & Hr' & Hrp).
  exists r. split; [exact Hrp|].
  rewrite Forall_forall in Hl. now apply Hl.
Qed.

Lemma C1_entries_are_item_paths_witness :
  exists r, nth_error Demo.demo_paths r = Some "b.jpg" /\
            nth_error Demo.demo_labels r
              = Some (index (classes Demo.demo_state) "tops").
Proof.
  apply (C1_entries_are_item_paths topk_low [1; 0]%Q Demo.demo_features
           Demo.demo_labels Demo.demo_paths ["tops"] 5%Z Demo.demo_state
           [("tops", ["a.jpg"; "b.jpg"])] Demo.demo_state
           "tops" ["a.jpg"; "b.jpg"] "b.jpg").
  - exact topk_low_contract.
  - reflexivity.
  - simpl; auto.
  - simpl; auto.
Defined.

(** C4: for every category present in the result, the length of its
    sequence is the minimum of [top_k] and the number of store items
    labelled with that category. *)
Theorem C4_entry_length
    topk q feats labels paths cats top_k s res s' n ps :
  topk_contract topk ->
  find_compatible_items topk q feats labels paths cats top_k s
    = (inr res, s') ->
  In (n, ps) res ->
  Z.of_nat (length ps)
    = Z.min top_k
        (Z.of_nat (count_occ Nat.eq_dec labels (index (classes s) n))).
Proof.
  intros Hc H Hn.
  destruct (result_entries _ _ _ _ _ _ _ _ _ _ H n ps Hn)
    as (_ & _ & rws & Hr & Hps).
  destruct (rank_category_spec _ _ _ _ _ _ Hc Hr) as (_ & _ & Hlen & _).
  now rewrite <- (Forall2_length_eq _ _ _ Hps).
Qed.

Lemma C4_entry_length_witness :
  Z.of_nat (length ["a.jpg"; "b.jpg"])
    = Z.min 5 (Z.of_nat (count_occ Nat.eq_dec Demo.demo_labels
                           (index (classes Demo.demo_state) "tops"))).
Proof.
  apply (C4_entry_length topk_low [1; 0]%Q Demo.demo_features
           Demo.demo_labels Demo.demo_paths ["tops"] 5%Z Demo.demo_state
           [("tops", ["a.jpg"; "b.jpg"])] Demo.demo_state "tops").
  - exact topk_low_contract.
  - reflexivity.
  - simpl; auto.
Defined.

(** C10: within one category's sequence no store row appears twice:
    the entry lists, in order, the paths of the selected rows
    ([topk_original_indices]), which are pairwise distinct and all
    labelled with that category. *)
Theorem C10_rows_distinct
    topk q feats labels paths cats top_k s res s' n ps :
  topk_contract topk ->
  find_compatible_items topk q feats labels paths cats top_k s
    = (inr res, s') ->
  In (n, ps) res ->
  exists rws,
    rank_category topk (similarities q feats) labels top_k
      (index (classes s) n) = inr (Some rws) /\
    paths_of paths rws ps /\ NoDup rws /\
    Forall (fun r => nth_error labels r = Some (index (classes s) n)) rws.
Proof.
  intros Hc H Hn.
  destruct (result_entries _ _ _ _ _ _ _ _ _ _ H n ps Hn)
    as (_ & _ & rws & Hr & Hps).
  destruct (rank_category_spec _ _ _ _ _ _ Hc Hr) as (Hnd & Hl & _).
  exists rws. repeat split; auto.
  eapply Forall_impl; [|exact Hl]. now intros r [H1 _].
Qed.

Lemma C10_rows_distinct_witness :
  exists rws,
    rank_category topk_low (similarities [1; 0]%Q Demo.demo_features)
      Demo.demo_labels 5%Z (index (classes Demo.demo_state) "tops")
      = inr (Some rws) /\
    paths_of Demo.demo_paths rws ["a.jpg"; "b.jpg"] /\ NoDup rws /\
    Forall (fun r => nth_error Demo.demo_labels r
                     = Some (index (classes Demo.demo_state) "tops")) rws.
Proof.
  apply (C10_rows_distinct topk_low [1; 0]%Q Demo.demo_features
           Demo.demo_labels Demo.demo_paths ["tops"] 5%Z Demo.demo_state
           [("tops", ["a.jpg"; "b.jpg"])] Demo.demo_state "tops").
  - exact topk_low_contract.
  - reflexivity.
  - simpl; auto.
Defined.

(** ** Claims about the order of the result *)

(** C2, counterexample: the order of equal scores is left to
    [torch.topk], whose contract does not fix it.  With the selection
    [topk_high], four tops holding the same vector come back as rows
    3, 2, 1, 0: equal scores, descending rows. *)
Lemma C2_ties_not_fixed_by_topk :
  ~ (forall topk, topk_contract topk -> ranked_ties_ascending topk).
Proof.
  intros H.
  destruct (H topk_high topk_high_contract [1; 0]%Q Demo.quad_features
              Demo.quad_labels Demo.quad_paths ["tops"] 5%Z Demo.demo_state
              [("tops", ["d.jpg"; "c.jpg"; "b.jpg"; "a.jpg"])]
              Demo.demo_state
              "tops" ["d.jpg"; "c.jpg"; "b.jpg"; "a.jpg"]
              eq_refl (or_introl eq_refl))
    as (rws & Hr & _ & _ & Hties).
  vm_compute in Hr. inversion Hr; subst rws.
  specialize (Hties 0 1). simpl in Hties.
  assert (3 < 2) by (apply Hties; [lia|lia|reflexivity]). lia.
Qed.

(** C2, amended: for every category present in the result, the
    returned sequence lists the paths of the selected rows
    ([topk_original_indices]) in order, and their similarity scores
    are non-increasing; the order among equal scores is the one
    [torch.topk] returns. *)
Theorem C2_scores_non_increasing
    topk q feats labels paths cats top_k s res s' n ps :
  topk_contract topk ->
  find_compatible_items topk q feats labels paths cats top_k s
    = (inr res, s') ->
  In (n, ps) res ->
  exists rws,
    rank_category topk (similarities q feats) labels top_k
      (index (classes s) n) = inr (Some rws) /\
    paths_of paths rws ps /\
    descending (similarities q feats) rws.
Proof.
  intros Hc H Hn.
  destruct (result_entries _ _ _ _ _ _ _ _ _ _ H n ps Hn)
    as (_ & _ & rws & Hr & Hps).
  destruct (rank_category_spec _ _ _ _ _ _ Hc Hr) as (_ & _ & _ & Hd & _).
  exists rws. repeat split; assumption.
Qed.

Lemma C2_scores_non_increasing_witness :
  exists rws,
    rank_category topk_low (similarities [1; 0]%Q Demo.demo_features)
      Demo.demo_labels 5%Z (index (classes Demo.demo_state) "tops")
      = inr (Some rws) /\
    paths_of Demo.demo_paths rws ["a.jpg"; "b.jpg"] /\
    descending (similarities [1; 0]%Q Demo.demo_features) rws.
Proof.
  apply (C2_scores_non_increasing topk_low [1; 0]%Q Demo.demo_features
           Demo.demo_labels Demo.demo_paths ["tops"] 5%Z Demo.demo_state
           [("tops", ["a.jpg"; "b.jpg"])] Demo.demo_state "tops").
  - exact topk_low_contract.
  - reflexivity.
  - simpl; auto.
Defined.

(** ** Claims about failures and effects *)

Lemma resolve_nil cls cats :
  (forall cat, In cat cats -> ~ In cat cls) -> resolve cls cats = [].
Proof.
  intros H. destruct (resolve cls cats) as [|c tis] eqn:Hr; [reflexivity|].
  assert (Hin : In c (resolve cls cats)) by (rewrite Hr; now left).
  apply resolve_In in Hin. destruct Hin as (cat & H1 & H2 & _).
  now destruct (H cat H1).
Qed.

Lemma resolve_cons cls cats cat :
  In cat cats -> In cat cls -> resolve cls cats <> [].
Proof.
  intros H1 H2 Hr.
  assert (Hin : In (index cls cat) (resolve cls cats))
    by (apply resolve_In; exists cat; auto).
  rewrite Hr in Hin. destruct Hin.
Qed.

(** C5: when no requested category name is in [classes], the search
    returns the empty result and emits one warning; nothing is
    raised. *)
Theorem C5_unknown_categories
    topk q feats labels paths cats top_k s :
  (forall cat, In cat cats -> ~ In cat (classes s)) ->
  find_compatible_items topk q feats labels paths cats top_k s
    = (inr [], mkState (classes s)
                 (st_log s ++ [Warning no_valid_categories])).
Proof.
  intros H. unfold find_compatible_items, bind, get_classes.
  now rewrite (resolve_nil _ _ H).
Qed.

Lemma C5_unknown_categories_witness :
  find_compatible_items topk_low [1; 0]%Q Demo.demo_features
    Demo.demo_labels Demo.demo_paths ["shoes"] 5%Z Demo.demo_state
  = (inr [], mkState (classes Demo.demo_state)
               (st_log Demo.demo_state ++ [Warning no_valid_categories])).
Proof.
  apply (C5_unknown_categories topk_low [1; 0]%Q Demo.demo_features
           Demo.demo_labels Demo.demo_paths ["shoes"] 5%Z Demo.demo_state).
  intros cat [<-|[]] [H|[H|[]]]; discriminate.
Defined.

(** C6, counterexample: a query of dimension 3 against the demo store
    of dimension 2, asking only for the unknown "shoes", returns the
    empty result: the early return comes before the scores are
    computed, whatever [torch.topk] is. *)
Lemma C6_no_failure_without_valid_category :
  ~ exists topk, dimension_checked topk.
Proof.
  intros [topk H].
  destruct (H [1; 0; 0]%Q Demo.demo_features Demo.demo_labels
              Demo.demo_paths ["shoes"] 5%Z Demo.demo_state)
    as [e He]; [simpl; lia|].
  discriminate He.
Qed.

(** C6, amended: when the dimension of the query differs from the
    store's and at least one requested category is in [classes], the
    search fails with torch's shape error and leaves the state
    (classes and emitted warnings) as it was; when no requested
    category is in [classes], the early return precedes the check. *)
Theorem C6_dimension_mismatch
    topk q feats labels paths cats top_k s cat :
  length q <> ncols feats ->
  In cat cats -> In cat (classes s) ->
  find_compatible_items topk q feats labels paths cats top_k s
    = (inl (RuntimeError "mat1 and mat2 shapes cannot be multiplied"), s).
Proof.
  intros Hd H1 H2.
  unfold find_compatible_items, bind, get_classes, lift.
  destruct (resolve (classes s) cats) as [|c tis] eqn:Hr.
  - now destruct (resolve_cons _ _ _ H1 H2).
  - unfold matmul_T. now destruct (Nat.eqb_spec (length q) (ncols feats)).
Qed.

Lemma C6_dimension_mismatch_witness :
  find_compatible_items topk_low [1; 0; 0]%Q Demo.demo_features
    Demo.demo_labels Demo.demo_paths ["tops"] 5%Z Demo.demo_state
  = (inl (RuntimeError "mat1 and mat2 shapes cannot be multiplied"),
     Demo.demo_state).
Proof.
  apply (C6_dimension_mismatch topk_low [1; 0; 0]%Q Demo.demo_features
           Demo.demo_labels Demo.demo_paths ["tops"] 5%Z Demo.demo_state
           "tops").
  - simpl; lia.
  - simpl; auto.
  - simpl; auto.
Defined.

(** The outcome of a call and the warnings it emits depend on the
    arguments and on [classes] only; [classes] is left as it was. *)
Lemma find_compatible_items_outcome topk q feats labels paths cats top_k cls :
  exists outcome emitted,
    forall log,
      find_compatible_items topk q feats labels paths cats top_k
        (mkState cls log)
      = (outcome, mkState cls (log ++ emitted)).
Proof.
  unfold find_compatible_items, bind, get_classes, st_warning, ret, lift.
  simpl. destruct (resolve cls cats) as [|c tis].
  - exists (inr []), [Warning no_valid_categories]. reflexivity.
  - destruct (matmul_T q feats) as [e|sims].
    + exists (inl e), []. intros log. now rewrite app_nil_r.
    + exists (for_each_category topk cls sims labels paths top_k (c :: tis) []),
        [].
      intros log. rewrite app_nil_r.
      now destruct (for_each_category _ _ _ _ _ _ _ _).
Qed.

Lemma resolve_nil_iff cls cats :
  resolve cls cats = [] <-> existsb (contains cls) cats = false.
Proof.
  induction cats as [|cat cats IH]; simpl; [tauto|].
  destruct (contains cls cat); simpl; [|exact IH].
  split; discriminate.
Qed.

(** C8, counterexample: asked only for the unknown "shoes", the search
    leaves one more warning on the page than it found: the call has an
    effect, whatever [torch.topk] is. *)
Lemma C8_warning_is_an_effect : ~ exists topk, search_is_pure topk.
Proof.
  intros [topk H].
  destruct (H [1; 0]%Q Demo.demo_features Demo.demo_labels Demo.demo_paths
              ["shoes"] 5%Z Demo.demo_state) as [_ Hs].
  discriminate Hs.
Qed.

(** C8, amended: calling the search twice with the same arguments
    yields the same outcome, the second call starting from the state
    the first one left; the outcome depends on the arguments and on
    [classes] only.  The call has one effect: when no requested name
    is in [classes] it shows one warning; otherwise it leaves the
    state as it was.  [classes] is never changed. *)
Theorem C8_search_effect
    topk q feats labels paths cats top_k s :
  let run := find_compatible_items topk q feats labels paths cats top_k in
  fst (run (snd (run s))) = fst (run s) /\
  (forall log, fst (run (mkState (classes s) log)) = fst (run s)) /\
  snd (run s)
    = if existsb (contains (classes s)) cats
      then s
      else mkState (classes s) (st_log s ++ [Warning no_valid_categories]).
Proof.
  destruct s as [cls log0]. cbv zeta.
  split; [|split].
  - destruct (find_compatible_items_outcome topk q feats labels paths cats
                top_k cls) as (outcome & emitted & H).
    rewrite !H. simpl. now rewrite H.
  - destruct (find_compatible_items_outcome topk q feats labels paths cats
                top_k cls) as (outcome & emitted & H).
    intros log. simpl. now rewrite !H.
  - unfold find_compatible_items, bind, get_classes, st_warning, ret, lift.
    simpl. pose proof (resolve_nil_iff cls cats) as Hnil.
    destruct (resolve cls cats) as [|c tis].
    + now rewrite (proj1 Hnil eq_refl).
    + destruct (existsb (contains cls) cats);
        [|destruct Hnil as [_ Hn]; now specialize (Hn eq_refl)].
      destruct (matmul_T q feats) as [e|sims]; [reflexivity|].
      now destruct (for_each_category _ _ _ _ _ _ _ _).
Qed.

(** ** The search returns on a well-formed store *)

Lemma rank_category_total topk sims labels top_k c :
  topk_contract topk -> length labels <= length sims -> (0 <= top_k)%Z ->
  exists o, rank_category topk sims labels top_k c = inr o.
Proof.
  intros Hc Hlen Hk. unfold rank_category.
  assert (HP : Forall (fun i => i < length sims) (positions labels c)).
  { rewrite Forall_forall. intros i Hi. apply positions_In in Hi.
    assert (i < length labels) by (apply nth_error_Some; congruence). lia. }
  destruct (positions labels c) as [|p0 P0] eqn:HPeq; [now exists None|].
  rewrite <- HPeq in *. clear HPeq.
  destruct (gather_total _ _ HP) as [cs Hcs]. rewrite Hcs. simpl.
  apply gather_inr, Forall2_length_eq in Hcs.
  unfold torch_topk.
  destruct ((_ <? 0)%Z || _) eqn:Hrange.
  { apply orb_true_iff in Hrange. destruct Hrange as [H|H];
      apply Z.ltb_lt in H; lia. }
  simpl.
  specialize (Hc cs (Z.to_nat (Z.min top_k (Z.of_nat (length cs))))
                ltac:(lia)).
  destruct (topk cs _) as [vals idxs]. simpl.
  destruct Hc as (_ & _ & Hlt & _).
  rewrite <- Hcs in Hlt.
  destruct (gather_total _ _ Hlt) as [rws Hrws]. rewrite Hrws. simpl.
  now exists (Some rws).
Qed.


Lemma dict_get_set_same d k v : dict_get (dict_set d k v) k = Some v.
Proof.
  induction d as [|[k' v'] d IH]; simpl.
  - now rewrite String.eqb_refl.
  - destruct (String.eqb k k') eqn:Hk; simpl.
    + now rewrite String.eqb_refl.
    + now rewrite Hk.
Qed.

Lemma dict_get_set_other d k v k' :
  k' <> k -> dict_get (dict_set d k v) k' = dict_get d k'.
Proof.
  intros Hne. induction d as [|[k0 v0] d IH]; simpl.
  - destruct (String.eqb_spec k' k); [contradiction|reflexivity].
  - destruct (String.eqb_spec k k0) as [->|Hk]; simpl.
    + destruct (String.eqb_spec k' k0); [contradiction|reflexivity].
    + destruct (String.eqb k' k0); [reflexivity|exact IH].
Qed.

(** On a well-formed store the loop returns, and the entry of every
    resolved category that has items is the one its turn computed. *)
Lemma for_each_category_get topk cls sims labels paths top_k tis :
  topk_contract topk ->
  length labels <= length sims -> length labels <= length paths ->
  (0 <= top_k)%Z ->
  Forall (fun c => exists cat, In cat cls /\ c = index cls cat) tis ->
  forall d, exists d',
    for_each_category topk cls sims labels paths top_k tis d = inr d' /\
    forall n rws ps,
      In n cls ->
      rank_category topk sims labels top_k (index cls n)
        = inr (Some rws) ->
      gather paths rws = inr ps ->
      In (index cls n) tis \/ dict_get d n = Some ps ->
      dict_get d' n = Some ps.
Proof.
  intros Hc Hls Hlp Hk Htis.
  induction Htis as [|c0 tis (cat0 & Hcat0 & ->) _ IH]; intros d; simpl.
  - exists d. split; [reflexivity|]. intros n rws ps _ _ _ [[]|H]. exact H.
  - destruct (rank_category_total topk sims labels top_k (index cls cat0)
                Hc Hls Hk) as [[rws0|] Hr0]; rewrite Hr0; simpl.
    + destruct (rank_category_spec _ _ _ _ _ _ Hc Hr0) as (_ & Hl0 & _).
      assert (Hin0 : Forall (fun r => r < length paths) rws0).
      { eapply Forall_impl; [|exact Hl0]. intros r [Hr _]. simpl.
        assert (r < length labels) by (apply nth_error_Some; congruence).
        lia. }
      destruct (gather_total _ _ Hin0) as [ps0 Hps0]. rewrite Hps0. simpl.
      unfold getitem. rewrite (index_nth_error _ _ Hcat0). simpl.
      destruct (IH (dict_set d cat0 ps0)) as (d' & Hd' & Hget).
      exists d'. split; [exact Hd'|].
      intros n rws ps Hn Hr Hps Hor.
      apply (Hget n rws ps Hn Hr Hps).
      destruct (String.eqb_spec n cat0) as [->|Hne].
      * right. rewrite Hr0 in Hr. inversion Hr; subst.
        rewrite Hps0 in Hps. inversion Hps; subst.
        apply dict_get_set_same.
      * rewrite (dict_get_set_other _ _ _ _ Hne).
        destruct Hor as [[Heq|Hin]|Hd]; auto.
        exfalso. apply Hne.
        pose proof (index_nth_error _ _ Hn) as H1.
        pose proof (index_nth_error _ _ Hcat0) as H2.
        rewrite <- Heq in H1. congruence.
    + destruct (IH d) as (d' & Hd' & Hget).
      exists d'. split; [exact Hd'|].
      intros n rws ps Hn Hr Hps Hor.
      apply (Hget n rws ps Hn Hr Hps).
      destruct Hor as [[Heq|Hin]|Hd]; auto.
      rewrite <- Heq in Hr. congruence.
Qed.

Lemma resolve_indices cls cats :
  Forall (fun c => exists cat, In cat cls /\ c = index cls cat)
    (resolve cls cats).
Proof.
  rewrite Forall_forall. intros c Hc. apply resolve_In in Hc.
  destruct Hc as (cat & _ & H1 & H2). now exists cat.
Qed.

(** With a query of the store's dimension, labels and paths for every
    row and a non-negative [top_k], the search returns a result. *)
Lemma find_compatible_items_returns
    topk q feats labels paths cats top_k s :
  topk_contract topk ->
  length q = ncols feats ->
  length labels <= length (rows feats) ->
  length labels <= length paths ->
  (0 <= top_k)%Z ->
  exists res s',
    find_compatible_items topk q feats labels paths cats top_k s
      = (inr res, s').
Proof.
  intros Hc Hq Hls Hlp Hk.
  unfold find_compatible_items, bind, get_classes, st_warning, ret, lift.
  destruct (resolve (classes s) cats) as [|c tis] eqn:Hres.
  - eexists _, _. reflexivity.
  - unfold matmul_T. rewrite (proj2 (Nat.eqb_eq _ _) Hq).
    assert (Hls' : length labels <= length (map (dot q) (rows feats)))
      by now rewrite length_map.
    pose proof (resolve_indices (classes s) cats) as Htis.
    rewrite Hres in Htis.
    destruct (for_each_category_get topk (classes s) _ labels paths top_k
                _ Hc Hls' Hlp Hk Htis []) as (d' & Hd' & _).
    rewrite Hd'. eexists _, _. reflexivity.
Qed.

(** ** Querying with a stored vector *)




(** ** Normalisation *)

Module NormalizeFacts.

Import Normalize.
Local Open Scope R_scope.

Lemma float32_eps_pos : 0 < float32_eps.
Proof. unfold float32_eps. lra. Qed.

Lemma sum_squares_nonneg r : 0 <= sum_squares r.
Proof.
  induction r as [|x r IH]; simpl; [lra|].
  pose proof (Rle_0_sqr x) as Hx. unfold Rsqr in Hx. lra.
Qed.

Lemma sum_squares_zero r : sum_squares r = 0 -> Forall (fun x => x = 0) r.
Proof.
  induction r as [|x r IH]; simpl; intros H; constructor.
  - pose proof (Rle_0_sqr x) as Hx. unfold Rsqr in Hx.
    pose proof (sum_squares_nonneg r).
    assert (Hxx : x * x = 0) by lra.
    destruct (Rmult_integral _ _ Hxx); assumption.
  - apply IH. pose proof (Rle_0_sqr x) as Hx. unfold Rsqr in Hx.
    pose proof (sum_squares_nonneg r). lra.
Qed.

Lemma row_norm_zero r : row_norm r = 0 -> Forall (fun x => x = 0) r.
Proof.
  intros H. apply sum_squares_zero.
  apply sqrt_eq_0; [apply sum_squares_nonneg|exact H].
Qed.

Lemma divide_by_one r : map (fun x => x / 1) r = r.
Proof.
  induction r as [|x r IH]; simpl; [reflexivity|].
  rewrite IH. f_equal. field.
Qed.

Lemma divide_rows_nth eps X i r :
  nth_error X i = Some r ->
  nth_error (divide_rows X (handle_zeros_in_scale eps (map row_norm X))) i
    = Some (map (fun x => x / scale_of eps r) r).
Proof.
  revert i. induction X as [|r0 X IH]; intros [|i] H; simpl in *;
    try discriminate.
  - inversion H; subst. reflexivity.
  - now apply IH.
Qed.


(** C3, counterexample: the one-row database holding the zero vector
    is normalised without any error, whatever the machine epsilon. *)
Lemma C3_zero_vector_is_accepted : ~ exists eps, degenerate_rejected eps.
Proof.
  intros [eps H].
  destruct (H [[0; 0]] [0; 0]) as [e He].
  - now left.
  - unfold row_norm. simpl.
    replace (0 * 0 + (0 * 0 + 0)) with 0 by ring. apply sqrt_0.
  - discriminate He.
Qed.

(** C3, amended: loading a database that holds a zero-norm vector
    does not fail.  With at least one row and one column the
    normalisation succeeds and leaves a zero-norm row as it is, all
    zeros (its norm is replaced by one before the division). *)
Theorem C3_zero_vector_kept eps x0 r0 X' i r :
  0 < eps ->
  nth_error ((x0 :: r0) :: X') i = Some r ->
  row_norm r = 0 ->
  exists Y,
    normalize_features eps ((x0 :: r0) :: X') = inr Y /\
    nth_error Y i = Some r /\
    Forall (fun x => x = 0) r.
Proof.
  intros Heps Hi Hr.
  exists (divide_rows ((x0 :: r0) :: X')
            (handle_zeros_in_scale eps (map row_norm ((x0 :: r0) :: X')))).
  split; [reflexivity|]. split; [|now apply row_norm_zero].
  rewrite (divide_rows_nth eps _ i r Hi). unfold scale_of.
  destruct (Rlt_dec (row_norm r) (10 * eps)) as [_|Hge]; [|lra].
  now rewrite divide_by_one.
Qed.

Lemma C3_zero_vector_kept_witness :
  exists Y,
    normalize_features float32_eps [[3; 4]; [0; 0]] = inr Y /\
    nth_error Y 1 = Some [0; 0] /\
    Forall (fun x => x = 0) [0; 0].
Proof.
  apply (C3_zero_vector_kept float32_eps 3 [4] [[0; 0]] 1%nat [0; 0]).
  - exact float32_eps_pos.
  - reflexivity.
  - unfold row_norm. simpl.
    replace (0 * 0 + (0 * 0 + 0)) with 0 by ring. apply sqrt_0.
Defined.




End NormalizeFacts.

(** * Further properties of the search *)

(** ** Keys of the result *)

Lemma dict_set_keys d k v :
  map fst (dict_set d k v) = add_key (map fst d) k.
Proof.
  unfold add_key, contains. induction d as [|[k' v'] d IH]; simpl.
  - reflexivity.
  - destruct (String.eqb_spec k k') as [->|Hne]; simpl; [reflexivity|].
    rewrite IH. now destruct (existsb (String.eqb k) (map fst d)).
Qed.

Lemma add_key_NoDup keys k : NoDup keys -> NoDup (add_key keys k).
Proof.
  intros H. unfold add_key. destruct (contains keys k) eqn:Hc; [exact H|].
  apply NoDup_app; [exact H|repeat constructor; simpl; tauto|].
  intros x Hx [<-|[]]. apply contains_In in Hx. congruence.
Qed.

Lemma add_key_In keys k x : In x (add_key keys k) <-> In x keys \/ x = k.
Proof.
  unfold add_key. destruct (contains keys k) eqn:Hc.
  - apply contains_In in Hc. split; [now left|].
    intros [H| ->]; assumption.
  - rewrite in_app_iff. simpl. intuition.
Qed.

Lemma fold_add_key_NoDup names keys :
  NoDup keys -> NoDup (fold_left add_key names keys).
Proof.
  revert keys. induction names as [|n names IH]; intros keys H; simpl;
    [exact H|]. now apply IH, add_key_NoDup.
Qed.

Lemma fold_add_key_In names keys x :
  In x (fold_left add_key names keys) <-> In x keys \/ In x names.
Proof.
  revert keys. induction names as [|n names IH]; intros keys; simpl.
  - tauto.
  - rewrite IH, add_key_In. intuition.
Qed.

Lemma positions_nil labels c :
  positions labels c = [] <-> existsb (Nat.eqb c) labels = false.
Proof.
  split.
  - intros H. destruct (existsb (Nat.eqb c) labels) eqn:He; [|reflexivity].
    apply existsb_exists in He. destruct He as (l & Hl & Hcl).
    apply Nat.eqb_eq in Hcl. subst l.
    apply In_nth_error in Hl. destruct Hl as [i Hi].
    apply positions_In in Hi. rewrite H in Hi. destruct Hi.
  - intros H. destruct (positions labels c) as [|i P] eqn:HP; [reflexivity|].
    assert (Hi : In i (positions labels c)) by (rewrite HP; now left).
    apply positions_In, nth_error_In in Hi.
    assert (existsb (Nat.eqb c) labels = true).
    { apply existsb_exists. exists c. split; [exact Hi|apply Nat.eqb_refl]. }
    congruence.
Qed.

(** A turn is skipped exactly when no item carries the label. *)
Lemma rank_category_skips topk sims labels top_k c o :
  rank_category topk sims labels top_k c = inr o ->
  (o = None <-> existsb (Nat.eqb c) labels = false).
Proof.
  unfold rank_category. intros H. rewrite <- positions_nil.
  destruct (positions labels c) as [|p0 P0].
  - inversion H. split; auto.
  - unfold ebind in H.
    destruct (gather sims (p0 :: P0)); [discriminate|].
    destruct (torch_topk topk _ _); [discriminate|].
    destruct (gather (p0 :: P0) _); [discriminate|].
    inversion H. split; discriminate.
Qed.

Lemma resolve_map cls cats :
  resolve cls cats = map (index cls) (filter (contains cls) cats).
Proof.
  induction cats as [|cat cats IH]; simpl; [reflexivity|].
  destruct (contains cls cat); simpl; now rewrite IH.
Qed.

(** Keys after the loop, for a list of requested names found in
    [classes]. *)
Lemma for_each_category_keys topk cls sims labels paths top_k names d d' :
  Forall (fun n => In n cls) names ->
  for_each_category topk cls sims labels paths top_k
    (map (index cls) names) d = inr d' ->
  map fst d'
    = fold_left add_key
        (filter (fun n => existsb (Nat.eqb (index cls n)) labels) names)
        (map fst d).
Proof.
  intros Hn. revert d. induction Hn as [|n names Hin _ IH]; intros d H;
    simpl in H.
  - now inversion H.
  - unfold ebind in H.
    destruct (rank_category topk sims labels top_k (index cls n))
      as [e|o] eqn:Hr; [discriminate|].
    pose proof (rank_category_skips _ _ _ _ _ _ Hr) as Hskip.
    destruct o as [rws|].
    + destruct (gather paths rws) as [e|ps]; [discriminate|].
      unfold getitem in H. rewrite (index_nth_error _ _ Hin) in H.
      simpl. destruct (existsb (Nat.eqb (index cls n)) labels) eqn:He.
      * simpl. rewrite (IH _ H), dict_set_keys. reflexivity.
      * destruct Hskip as [_ Hs]. now specialize (Hs eq_refl).
    + simpl. rewrite (proj1 Hskip eq_refl). now apply IH.
Qed.

Lemma filter_served cls labels cats :
  filter (fun n => existsb (Nat.eqb (index cls n)) labels)
    (filter (contains cls) cats)
  = filter (served cls labels) cats.
Proof.
  unfold served. induction cats as [|cat cats IH]; simpl; [reflexivity|].
  destruct (contains cls cat); simpl; [|exact IH].
  destruct (existsb _ labels); now rewrite IH.
Qed.

(** X1: the keys of a result are the requested names that are in
    [classes] and label at least one item, each once, in the order of
    their first request. *)
Theorem result_keys_in_request_order
    topk q feats labels paths cats top_k s res s' :
  find_compatible_items topk q feats labels paths cats top_k s
    = (inr res, s') ->
  map fst res = fold_left add_key (filter (served (classes s) labels) cats) []
  /\ NoDup (map fst res)
  /\ forall n, In n (map fst res) <->
       In n cats /\ In n (classes s) /\ In (index (classes s) n) labels.
Proof.
  intros H.
  assert (Hkeys : map fst res
            = fold_left add_key (filter (served (classes s) labels) cats) []).
  { apply find_compatible_items_inr in H.
    destruct H as [(Hr & -> & _)|(_ & _ & _ & H)].
    - rewrite resolve_map in Hr. rewrite <- filter_served.
      apply map_eq_nil in Hr. now rewrite Hr.
    - rewrite resolve_map in H.
      apply for_each_category_keys in H.
      + now rewrite filter_served in H.
      + rewrite Forall_forall. intros n Hn. apply filter_In in Hn.
        now apply contains_In. }
  split; [exact Hkeys|]. rewrite Hkeys. split.
  - apply fold_add_key_NoDup. constructor.
  - intros n. rewrite fold_add_key_In, filter_In. unfold served.
    rewrite andb_true_iff, contains_In, existsb_exists. simpl. split.
    + intros [[]|(H1 & H2 & l & Hl & Heq)].
      apply Nat.eqb_eq in Heq. subst l. auto.
    + intros (H1 & H2 & H3). right. repeat split; auto.
      exists (index (classes s) n). split; [exact H3|apply Nat.eqb_refl].
Qed.

Lemma result_keys_in_request_order_witness :
  map fst [("pants", ["c.jpg"; "d.jpg"]); ("tops", ["b.jpg"; "a.jpg"])]
    = fold_left add_key
        (filter (served (classes Gallery.gallery_state) Gallery.gallery_labels)
           ["pants"; "hats"; "tops"; "shoes"; "pants"]) []
  /\ NoDup (map fst [("pants", ["c.jpg"; "d.jpg"]);
                     ("tops", ["b.jpg"; "a.jpg"])])
  /\ forall n,
       In n (map fst [("pants", ["c.jpg"; "d.jpg"]);
                      ("tops", ["b.jpg"; "a.jpg"])]) <->
       In n ["pants"; "hats"; "tops"; "shoes"; "pants"] /\
       In n (classes Gallery.gallery_state) /\
       In (index (classes Gallery.gallery_state) n) Gallery.gallery_labels.
Proof.
  apply (result_keys_in_request_order topk_low [0; 1]%Q
           Gallery.gallery_features Gallery.gallery_labels
           Gallery.gallery_paths ["pants"; "hats"; "tops"; "shoes"; "pants"]
           5%Z Gallery.gallery_state _ Gallery.gallery_state).
  reflexivity.
Defined.

(** ** Each category is served on its own *)

Lemma dict_get_In d k v : dict_get d k = Some v -> In (k, v) d.
Proof.
  induction d as [|[k' v'] d IH]; simpl; [discriminate|].
  destruct (String.eqb_spec k k') as [->|Hne].
  - intros H. inversion H. now left.
  - intros H. right. now apply IH.
Qed.

Lemma index_inj cls n m :
  In n cls -> In m cls -> index cls n = index cls m -> n = m.
Proof.
  intros Hn Hm H.
  pose proof (index_nth_error _ _ Hn) as H1.
  pose proof (index_nth_error _ _ Hm) as H2.
  rewrite H in H1. congruence.
Qed.

(** What the loop leaves under a known name [n]. *)
Lemma for_each_category_lookup topk cls sims labels paths top_k names n :
  Forall (fun m => In m cls) names -> In n cls ->
  forall d d',
    for_each_category topk cls sims labels paths top_k
      (map (index cls) names) d = inr d' ->
    dict_get d' n
      = if contains names n
        then match category_entry topk sims labels paths top_k
                     (index cls n) with
             | Some ps => Some ps
             | None => dict_get d n
             end
        else dict_get d n.
Proof.
  intros Hnames Hn. induction Hnames as [|m names Hm _ IH]; intros d d' H;
    simpl in H.
  - now inversion H.
  - unfold ebind in H. unfold contains in *. simpl.
    destruct (rank_category topk sims labels top_k (index cls m))
      as [e|o] eqn:Hr; [discriminate|].
    destruct o as [rws|].
    + destruct (gather paths rws) as [e|ps] eqn:Hg; [discriminate|].
      unfold getitem in H. rewrite (index_nth_error _ _ Hm) in H.
      simpl in H. rewrite (IH _ _ H).
      destruct (String.eqb_spec n m) as [->|Hne]; simpl.
      * unfold category_entry. rewrite Hr, Hg, dict_get_set_same.
        now destruct (existsb (String.eqb m) names).
      * now rewrite (dict_get_set_other _ _ _ _ Hne).
    + rewrite (IH _ _ H).
      destruct (String.eqb_spec n m) as [->|Hne]; simpl; [|reflexivity].
      unfold category_entry. rewrite Hr.
      now destruct (existsb (String.eqb m) names).
Qed.

Lemma contains_filter cls cats n :
  contains (filter (contains cls) cats) n = contains cats n && contains cls n.
Proof.
  destruct (contains (filter (contains cls) cats) n) eqn:H1.
  - apply contains_In, filter_In in H1. destruct H1 as [H1 H2].
    apply contains_In in H1. now rewrite H1, H2.
  - destruct (contains cats n) eqn:H2; [|reflexivity].
    destruct (contains cls n) eqn:H3; [|reflexivity].
    assert (contains (filter (contains cls) cats) n = true).
    { apply contains_In, filter_In. split; [now apply contains_In|exact H3]. }
    congruence.
Qed.

(** X2: in a result, the value under a name is what the turn of that
    category alone computes, whatever else was requested: the paths of
    the rows selected among the items of the category when the name
    is requested and in [classes], and no entry otherwise. *)
Theorem entry_lookup
    topk q feats labels paths cats top_k s res s' n :
  find_compatible_items topk q feats labels paths cats top_k s
    = (inr res, s') ->
  dict_get res n
    = if contains cats n && contains (classes s) n
      then category_entry topk (similarities q feats) labels paths top_k
             (index (classes s) n)
      else None.
Proof.
  intros H.
  destruct (contains cats n && contains (classes s) n) eqn:Hreq.
  - apply andb_true_iff in Hreq. destruct Hreq as [Hc Hk].
    apply contains_In in Hc, Hk.
    apply find_compatible_items_inr in H.
    destruct H as [(Hr & _)|(_ & _ & _ & H)];
      [now destruct (resolve_cons _ _ _ Hc Hk)|].
    rewrite resolve_map in H.
    assert (Hnames : Forall (fun m => In m (classes s))
                       (filter (contains (classes s)) cats)).
    { rewrite Forall_forall. intros m Hm. apply filter_In in Hm.
      now apply contains_In. }
    rewrite (for_each_category_lookup _ _ _ _ _ _ _ n Hnames Hk [] res H).
    rewrite contains_filter.
    rewrite (proj2 (contains_In _ _) Hc), (proj2 (contains_In _ _) Hk).
    simpl. now destruct (category_entry _ _ _ _ _ _).
  - destruct (dict_get res n) as [ps|] eqn:Hg; [|reflexivity].
    apply dict_get_In in Hg.
    destruct (result_entries _ _ _ _ _ _ _ _ _ _ H n ps Hg) as (H1 & H2 & _).
    apply contains_In in H1, H2. rewrite H1, H2 in Hreq. discriminate.
Qed.

Lemma entry_lookup_witness :
  dict_get [("pants", ["c.jpg"; "d.jpg"]); ("tops", ["b.jpg"; "a.jpg"])]
    "tops"
  = if contains ["pants"; "hats"; "tops"; "shoes"; "pants"] "tops"
       && contains (classes Gallery.gallery_state) "tops"
    then category_entry topk_low
           (similarities [0; 1]%Q Gallery.gallery_features)
           Gallery.gallery_labels Gallery.gallery_paths 5%Z
           (index (classes Gallery.gallery_state) "tops")
    else None.
Proof.
  apply (entry_lookup topk_low [0; 1]%Q Gallery.gallery_features
           Gallery.gallery_labels Gallery.gallery_paths
           ["pants"; "hats"; "tops"; "shoes"; "pants"] 5%Z
           Gallery.gallery_state _ Gallery.gallery_state "tops").
  reflexivity.
Defined.

(** ** Sizes and choice of the selected rows *)

Lemma existsb_count labels c :
  existsb (Nat.eqb c) labels = true -> 0 < count_occ Nat.eq_dec labels c.
Proof.
  intros H. apply existsb_exists in H. destruct H as (l & Hl & Heq).
  apply Nat.eqb_eq in Heq. subst l. now apply count_occ_In.
Qed.

(** Size of an entry: the smaller of [top_k] and the number of items
    of the category, which is positive. *)
Lemma result_entry_size
    topk q feats labels paths cats top_k s res s' n ps :
  topk_contract topk ->
  find_compatible_items topk q feats labels paths cats top_k s
    = (inr res, s') ->
  In (n, ps) res ->
  exists count, 0 < count /\
    Z.of_nat (length ps) = Z.min top_k (Z.of_nat count).
Proof.
  intros Hc H Hn.
  destruct (result_entries _ _ _ _ _ _ _ _ _ _ H n ps Hn)
    as (_ & _ & rws & Hr & Hps).
  destruct (rank_category_spec _ _ _ _ _ _ Hc Hr) as (_ & _ & Hlen & _).
  pose proof (rank_category_skips _ _ _ _ _ _ Hr) as Hskip.
  exists (count_occ Nat.eq_dec labels (index (classes s) n)). split.
  - apply existsb_count.
    destruct (existsb _ labels); [reflexivity|].
    destruct Hskip as [_ Hs]. now specialize (Hs eq_refl).
  - now rewrite <- (Forall2_length_eq _ _ _ Hps).
Qed.

(** X3: an entry of a result is empty exactly when [top_k] is 0: a
    category without items gets no entry, and a positive [top_k]
    always returns at least one item of a category that has some. *)
Theorem entry_empty_iff_top_k_zero
    topk q feats labels paths cats top_k s res s' n ps :
  topk_contract topk ->
  find_compatible_items topk q feats labels paths cats top_k s
    = (inr res, s') ->
  In (n, ps) res ->
  (ps = [] <-> top_k = 0%Z).
Proof.
  intros Hc H Hn.
  destruct (result_entry_size _ _ _ _ _ _ _ _ _ _ _ _ Hc H Hn)
    as (count & Hcount & Hlen).
  split.
  - intros ->. simpl in Hlen. lia.
  - intros ->. destruct ps; [reflexivity|simpl in Hlen; lia].
Qed.

Lemma entry_empty_iff_top_k_zero_witness :
  ["c.jpg"; "d.jpg"] = [] <-> 5%Z = 0%Z.
Proof.
  apply (entry_empty_iff_top_k_zero topk_low [0; 1]%Q
           Gallery.gallery_features Gallery.gallery_labels
           Gallery.gallery_paths ["pants"; "hats"; "tops"] 5%Z
           Gallery.gallery_state
           [("pants", ["c.jpg"; "d.jpg"]); ("tops", ["b.jpg"; "a.jpg"])]
           Gallery.gallery_state "pants").
  - exact topk_low_contract.
  - reflexivity.
  - simpl; auto.
Defined.

(** X4: the rows selected for a category are its best ones: no item of
    the category left out scores higher than an item returned. *)
Theorem selected_rows_are_best
    topk q feats labels paths cats top_k s res s' n ps :
  topk_contract topk ->
  find_compatible_items topk q feats labels paths cats top_k s
    = (inr res, s') ->
  In (n, ps) res ->
  exists rws,
    rank_category topk (similarities q feats) labels top_k
      (index (classes s) n) = inr (Some rws) /\
    paths_of paths rws ps /\
    forall r j, In r rws ->
      nth_error labels j = Some (index (classes s) n) -> ~ In j rws ->
      (score_at (similarities q feats) j
       <= score_at (similarities q feats) r)%Q.
Proof.
  intros Hc H Hn.
  destruct (result_entries _ _ _ _ _ _ _ _ _ _ H n ps Hn)
    as (_ & _ & rws & Hr & Hps).
  destruct (rank_category_spec _ _ _ _ _ _ Hc Hr) as (_ & _ & _ & _ & Hmax).
  exists rws. repeat split; assumption.
Qed.

Lemma selected_rows_are_best_witness :
  exists rws,
    rank_category topk_low (similarities [0; 1]%Q Gallery.gallery_features)
      Gallery.gallery_labels 1%Z
      (index (classes Gallery.gallery_state) "tops") = inr (Some rws) /\
    paths_of Gallery.gallery_paths rws ["b.jpg"] /\
    forall r j, In r rws ->
      nth_error Gallery.gallery_labels j
        = Some (index (classes Gallery.gallery_state) "tops") ->
      ~ In j rws ->
      (score_at (similarities [0; 1]%Q Gallery.gallery_features) j
       <= score_at (similarities [0; 1]%Q Gallery.gallery_features) r)%Q.
Proof.
  apply (selected_rows_are_best topk_low [0; 1]%Q
           Gallery.gallery_features Gallery.gallery_labels
           Gallery.gallery_paths ["tops"] 1%Z Gallery.gallery_state
           [("tops", ["b.jpg"])] Gallery.gallery_state "tops").
  - exact topk_low_contract.
  - reflexivity.
  - simpl; auto.
Defined.

(** ** Failures and warnings *)

Lemma for_each_category_negative topk cls sims labels paths top_k tis c :
  (top_k < 0)%Z -> length labels <= length sims ->
  In c tis -> existsb (Nat.eqb c) labels = true ->
  forall d,
    for_each_category topk cls sims labels paths top_k tis d
      = inl (RuntimeError "selected index k out of range").
Proof.
  intros Hk Hlen Hin Hc. induction tis as [|c0 tis IH]; intros d;
    [destruct Hin|]. simpl.
  destruct (existsb (Nat.eqb c0) labels) eqn:H0.
  - unfold rank_category.
    assert (HP : Forall (fun i => i < length sims) (positions labels c0)).
    { rewrite Forall_forall. intros i Hi. apply positions_In in Hi.
      assert (i < length labels) by (apply nth_error_Some; congruence).
      lia. }
    destruct (positions labels c0) as [|p0 P0] eqn:HPeq.
    { apply positions_nil in HPeq. congruence. }
    destruct (gather_total _ _ HP) as [cs Hcs]. rewrite Hcs. simpl.
    unfold torch_topk.
    replace (Z.min top_k (Z.of_nat (length cs)) <? 0)%Z with true
      by (symmetry; apply Z.ltb_lt; lia).
    reflexivity.
  - apply positions_nil in H0. unfold rank_category. rewrite H0. simpl.
    apply IH. destruct Hin as [->|Hin]; [|exact Hin].
    apply positions_nil in H0. congruence.
Qed.

(** X5: a negative [top_k] makes the search fail with torch's range
    error as soon as a requested category has an item; the state is
    left as it was. *)
Theorem negative_top_k_raises
    topk q feats labels paths cats top_k s cat :
  (top_k < 0)%Z ->
  length q = ncols feats ->
  length labels <= length (rows feats) ->
  In cat cats -> In cat (classes s) ->
  In (index (classes s) cat) labels ->
  find_compatible_items topk q feats labels paths cats top_k s
    = (inl (RuntimeError "selected index k out of range"), s).
Proof.
  intros Hk Hq Hlen Hc Hcls Hlab.
  unfold find_compatible_items, bind, get_classes, lift.
  assert (Hin : In (index (classes s) cat) (resolve (classes s) cats))
    by (apply resolve_In; exists cat; auto).
  destruct (resolve (classes s) cats) as [|c0 tis] eqn:Hres;
    [destruct Hin|].
  unfold matmul_T. rewrite (proj2 (Nat.eqb_eq _ _) Hq).
  rewrite (for_each_category_negative topk (classes s) _ labels paths top_k
             (c0 :: tis) (index (classes s) cat) Hk); auto.
  - now rewrite length_map.
  - apply existsb_exists. exists (index (classes s) cat).
    split; [exact Hlab|apply Nat.eqb_refl].
Qed.

Lemma negative_top_k_raises_witness :
  find_compatible_items topk_low [0; 1]%Q Gallery.gallery_features
    Gallery.gallery_labels Gallery.gallery_paths ["hats"; "tops"] (-1)%Z
    Gallery.gallery_state
  = (inl (RuntimeError "selected index k out of range"),
     Gallery.gallery_state).
Proof.
  apply (negative_top_k_raises topk_low [0; 1]%Q Gallery.gallery_features
           Gallery.gallery_labels Gallery.gallery_paths ["hats"; "tops"]
           (-1)%Z Gallery.gallery_state "tops").
  - lia.
  - reflexivity.
  - simpl; lia.
  - simpl; auto.
  - simpl; auto.
  - simpl; auto.
Defined.

(** X6: with at least one requested name in [classes], the search
    emits nothing, whether it returns or fails: unknown names among
    the requested ones are dropped without a warning. *)
Theorem valid_category_no_warning
    topk q feats labels paths cats top_k s cat :
  In cat cats -> In cat (classes s) ->
  snd (find_compatible_items topk q feats labels paths cats top_k s) = s.
Proof.
  intros Hc Hcls.
  unfold find_compatible_items, bind, get_classes, lift.
  destruct (resolve (classes s) cats) as [|c0 tis] eqn:Hres;
    [now destruct (resolve_cons _ _ _ Hc Hcls)|].
  destruct (matmul_T q feats) as [e|sims]; [reflexivity|].
  now destruct (for_each_category _ _ _ _ _ _ _ _).
Qed.

Lemma valid_category_no_warning_witness :
  snd (find_compatible_items topk_low [0; 1]%Q Gallery.gallery_features
         Gallery.gallery_labels Gallery.gallery_paths ["shoes"; "tops"] 5%Z
         Gallery.gallery_state)
  = Gallery.gallery_state.
Proof.
  apply (valid_category_no_warning topk_low [0; 1]%Q
           Gallery.gallery_features Gallery.gallery_labels
           Gallery.gallery_paths ["shoes"; "tops"] 5%Z
           Gallery.gallery_state "tops").
  - simpl; auto.
  - simpl; auto.
Defined.

Lemma filter_contains_twice cls cats :
  filter (contains cls) (filter (contains cls) cats)
  = filter (contains cls) cats.
Proof.
  induction cats as [|cat cats IH]; simpl; [reflexivity|].
  destruct (contains cls cat) eqn:Hc; simpl; [|exact IH].
  now rewrite Hc, IH.
Qed.

(** X7: names that are not in [classes] have no influence: the call
    behaves as if they had not been requested. *)
Theorem unknown_names_are_ignored
    topk q feats labels paths cats top_k s :
  find_compatible_items topk q feats labels paths cats top_k s
  = find_compatible_items topk q feats labels paths
      (filter (contains (classes s)) cats) top_k s.
Proof.
  unfold find_compatible_items, bind, get_classes. simpl.
  rewrite (resolve_map (classes s) (filter _ cats)), filter_contains_twice.
  now rewrite <- resolve_map.
Qed.

Lemma for_each_category_no_items topk cls sims labels paths top_k tis :
  Forall (fun c => existsb (Nat.eqb c) labels = false) tis ->
  forall d,
    for_each_category topk cls sims labels paths top_k tis d = inr d.
Proof.
  induction 1 as [|c tis Hc _ IH]; intros d; simpl; [reflexivity|].
  apply positions_nil in Hc. unfold rank_category. rewrite Hc. simpl.
  apply IH.
Qed.

(** X8: on a store with a label for no more than its rows and a path
    for every label, the search fails in two cases only, both after a
    requested name was found in [classes]: the query has not the
    dimension of the store, or [top_k] is negative and a requested
    category has an item.  In every other case it returns. *)
Theorem search_fails_iff
    topk q feats labels paths cats top_k s :
  topk_contract topk ->
  length labels <= length (rows feats) ->
  length labels <= length paths ->
  ((exists e,
      fst (find_compatible_items topk q feats labels paths cats top_k s)
        = inl e) <->
   (exists cat, In cat cats /\ In cat (classes s)) /\
   (length q <> ncols feats \/
    ((top_k < 0)%Z /\
     exists cat, In cat cats /\ In cat (classes s) /\
                 In (index (classes s) cat) labels))).
Proof.
  intros Hc Hls Hlp.
  unfold find_compatible_items, bind, get_classes, st_warning, ret, lift.
  pose proof (resolve_In (classes s) cats) as Hres.
  pose proof (resolve_indices (classes s) cats) as Htis.
  destruct (resolve (classes s) cats) as [|c0 tis]; cbv beta iota.
  - split; [intros [e He]; discriminate|].
    intros [(cat & H1 & H2) _].
    destruct (proj2 (Hres (index (classes s) cat))).
    exists cat; auto.
  - assert (Hvalid : exists cat, In cat cats /\ In cat (classes s)).
    { destruct (proj1 (Hres c0) (or_introl eq_refl)) as (cat & H1 & H2 & _).
      exists cat; auto. }
    unfold matmul_T.
    remember (c0 :: tis) as tis0 eqn:Htis0.
    destruct (Nat.eqb_spec (length q) (ncols feats)) as [Hq|Hq];
      cbv beta iota.
    + assert (Hls' : length labels <= length (map (dot q) (rows feats)))
        by now rewrite length_map.
      destruct (Z_lt_le_dec top_k 0) as [Hneg|Hpos].
      * destruct (Forall_Exists_dec
                    (fun c => existsb (Nat.eqb c) labels = false)
                    (fun c => bool_dec _ _) tis0) as [Hall|Hex].
        -- rewrite (for_each_category_no_items _ _ _ _ _ _ _ Hall). simpl.
           split; [intros [e He]; discriminate|].
           intros [_ [Hd|(_ & cat & H1 & H2 & H3)]]; [contradiction|].
           exfalso. rewrite Forall_forall in Hall.
           assert (Hin : In (index (classes s) cat) tis0)
             by (apply Hres; exists cat; auto).
           specialize (Hall _ Hin).
           assert (existsb (Nat.eqb (index (classes s) cat)) labels = true).
           { apply existsb_exists. exists (index (classes s) cat).
             split; [exact H3|apply Nat.eqb_refl]. }
           congruence.
        -- apply Exists_exists in Hex. destruct Hex as (c & Hin & Hne).
           apply not_false_is_true in Hne.
           rewrite (for_each_category_negative topk (classes s) _ labels
                      paths top_k tis0 c Hneg Hls' Hin Hne). simpl.
           split; [|intros _; eexists; reflexivity].
           intros _. split; [exact Hvalid|]. right. split; [exact Hneg|].
           destruct (proj1 (Hres c) Hin) as (cat & H1 & H2 & ->).
           exists cat. repeat split; auto.
           apply existsb_exists in Hne. destruct Hne as (l & Hl & Heq).
           apply Nat.eqb_eq in Heq. now subst l.
      * destruct (for_each_category_get topk (classes s) _ labels paths
                    top_k _ Hc Hls' Hlp Hpos Htis []) as (d' & Hd' & _).
        rewrite Hd'. simpl.
        split; [intros [e He]; discriminate|].
        intros [_ [Hd|(Hneg & _)]]; [contradiction|lia].
    + split; [|intros _; eexists; reflexivity].
      intros _. split; [exact Hvalid|now left].
Qed.

Lemma search_fails_iff_witness :
  (exists e,
     fst (find_compatible_items topk_low [0; 1; 0]%Q
            Gallery.gallery_features Gallery.gallery_labels
            Gallery.gallery_paths ["hats"] 5%Z Gallery.gallery_state)
       = inl e) <->
  (exists cat, In cat ["hats"] /\ In cat (classes Gallery.gallery_state)) /\
  (length [0; 1; 0]%Q <> ncols Gallery.gallery_features \/
   ((5 < 0)%Z /\
    exists cat, In cat ["hats"] /\ In cat (classes Gallery.gallery_state) /\
                In (index (classes Gallery.gallery_state) cat)
                  Gallery.gallery_labels)).
Proof.
  apply (search_fails_iff topk_low [0; 1; 0]%Q Gallery.gallery_features
           Gallery.gallery_labels Gallery.gallery_paths ["hats"] 5%Z
           Gallery.gallery_state).
  - exact topk_low_contract.
  - simpl; lia.
  - simpl; lia.
Defined.

(** * Properties of the display *)

Lemma max_len_zero values :
  max_len values = 0 <-> Forall (fun items => items = []) values.
Proof.
  induction values as [|items values IH]; simpl.
  - split; [constructor|reflexivity].
  - split.
    + intros H. assert (length items = 0 /\ max_len values = 0) as [H1 H2]
        by lia.
      constructor; [now destruct items|now apply IH].
    + intros H. inversion H as [|? ? H1 H2]; subst.
      apply IH in H2. simpl. lia.
Qed.

Lemma show_categories_returns can_open w d :
  Forall (fun entry => snd entry <> []) d ->
  show_categories can_open w d
    = (inr tt, flat_map (category_block can_open w) d).
Proof.
  induction 1 as [|[category images] d Hne _ IH]; simpl; [reflexivity|].
  destruct images as [|img images]; [now destruct Hne|].
  now rewrite IH.
Qed.

Lemma show_categories_raises can_open w d :
  Exists (fun entry => snd entry = []) d ->
  exists e, fst (show_categories can_open w d) = inl e.
Proof.
  induction d as [|[category images] d IH]; intros H;
    [inversion H|]. simpl.
  destruct images as [|img images]; [eexists; reflexivity|].
  inversion H as [? ? H0|? ? H0]; subst; [discriminate H0|].
  destruct (IH H0) as [e He].
  destruct (show_categories can_open w d) as [outcome shown].
  exists e. exact He.
Qed.

Lemma empty_or_not (entry : string * list string) :
  {snd entry <> []} + {~ snd entry <> []}.
Proof.
  destruct entry as [c [|i l]]; simpl; [right|left]; congruence.
Qed.

(** X13: the display raises exactly when the dict mixes an empty entry
    with a non-empty one ([st.columns] refuses zero columns); a dict
    whose entries are all empty, or all non-empty, is displayed. *)
Theorem display_raises_iff can_open d w :
  (exists e, fst (display_compatibility can_open d w) = inl e) <->
  (exists entry, In entry d /\ snd entry = []) /\
  (exists entry, In entry d /\ snd entry <> []).
Proof.
  unfold display_compatibility.
  destruct d as [|e0 d0] eqn:Hd.
  - simpl. split; [intros [e He]; discriminate|].
    intros [(entry & [] & _) _].
  - rewrite <- Hd. replace (Nat.eqb (length d) 0) with false
      by (subst d; reflexivity).
    replace (match d with [] => 0 | _ :: _ => max_len (map snd d) end)
      with (max_len (map snd d)) by (subst d; reflexivity).
    clear Hd e0 d0. simpl.
    destruct (Nat.eqb_spec (max_len (map snd d)) 0) as [Hz|Hnz].
    + simpl. split; [intros [e He]; discriminate|].
      intros [_ (entry & Hin & Hne)].
      apply max_len_zero in Hz. rewrite Forall_forall in Hz.
      destruct Hne. apply Hz. now apply in_map.
    + assert (Hsome : exists entry, In entry d /\ snd entry <> []).
      { destruct (Forall_Exists_dec (fun entry => ~ snd entry <> [])
                    (fun entry => match empty_or_not entry with
                                  | left H => right (fun K => K H)
                                  | right H => left H
                                  end) d) as [Hall|Hex].
        - destruct Hnz. apply max_len_zero.
          rewrite Forall_forall in *. intros items Hi.
          apply in_map_iff in Hi. destruct Hi as (entry & <- & Hin).
          specialize (Hall _ Hin). destruct (snd entry); [reflexivity|].
          destruct Hall. discriminate.
        - apply Exists_exists in Hex. destruct Hex as (entry & Hin & Hne).
          exists entry. split; [exact Hin|].
          destruct (empty_or_not entry); tauto. }
      destruct (Forall_Exists_dec (fun entry => snd entry <> [])
                  empty_or_not d) as [Hall|Hex].
      * rewrite (show_categories_returns _ _ _ Hall). simpl.
        split; [intros [e He]; discriminate|].
        intros [(entry & Hin & He) _]. rewrite Forall_forall in Hall.
        now destruct (Hall _ Hin).
      * assert (Hex' : Exists (fun entry => snd entry = []) d).
        { apply Exists_exists in Hex. destruct Hex as (entry & Hin & Hne).
          apply Exists_exists. exists entry. split; [exact Hin|].
          destruct (snd entry); [reflexivity|]. destruct Hne. discriminate. }
        split; [|intros _; now apply show_categories_raises].
        intros _. split; [|exact Hsome].
        apply Exists_exists in Hex'. exact Hex'.
Qed.

(** With an item in every entry of a non-empty dict, the check for
    "nothing to show" does not fire. *)
Lemma something_to_show (d : dict) :
  d <> [] ->
  (forall entry, In entry d -> snd entry <> []) ->
  Nat.eqb (length d) 0
  || Nat.eqb (match d with [] => 0 | _ :: _ => max_len (map snd d) end) 0
  = false.
Proof.
  intros Hd Hall.
  destruct d as [|[category images] d0]; [now destruct Hd|].
  specialize (Hall (category, images) (or_introl eq_refl)).
  destruct images as [|img images]; [now destruct Hall|].
  simpl. now destruct (max_len (map snd d0)).
Qed.

(** The page of a dict without any item. *)
Lemma display_unfilled can_open d w :
  (forall entry, In entry d -> snd entry = []) ->
  display_compatibility can_open d w = (inr tt, [Info no_compatible_items]).
Proof.
  intros Hall. unfold display_compatibility.
  destruct d as [|e0 d0] eqn:Hd; [reflexivity|]. rewrite <- Hd in *.
  assert (Hz : max_len (map snd d) = 0).
  { apply max_len_zero. rewrite Forall_forall. intros items Hi.
    apply in_map_iff in Hi. destruct Hi as (entry & <- & Hin).
    now apply Hall. }
  replace (match d with [] => 0 | _ :: _ => max_len (map snd d) end)
    with (max_len (map snd d)) by (subst d; reflexivity).
  rewrite Hz. now rewrite orb_true_r.
Qed.

(** X14: a non-empty dict without empty entry is displayed category by
    category, in the order of the dict: a subheader with the number of
    items, as many columns, and for each path, in order, its image or
    the note that it could not be opened; one unreadable image does
    not stop the display. *)
Theorem display_page can_open d w :
  d <> [] ->
  (forall entry, In entry d -> snd entry <> []) ->
  display_compatibility can_open d w
    = (inr tt, flat_map (category_block can_open w) d).
Proof.
  intros Hd Hall. unfold display_compatibility.
  rewrite (something_to_show d Hd Hall).
  apply show_categories_returns. now apply Forall_forall.
Qed.

Lemma display_page_witness :
  display_compatibility Gallery.on_disk
    [("pants", ["c.jpg"; "d.jpg"]); ("tops", ["b.jpg"; "a.jpg"])] 150
  = (inr tt,
     flat_map (category_block Gallery.on_disk 150)
       [("pants", ["c.jpg"; "d.jpg"]); ("tops", ["b.jpg"; "a.jpg"])]).
Proof.
  apply (display_page Gallery.on_disk
           [("pants", ["c.jpg"; "d.jpg"]); ("tops", ["b.jpg"; "a.jpg"])]
           150).
  - discriminate.
  - intros entry [<-|[<-|[]]]; discriminate.
Defined.

(** X15: the page is the single information message exactly when the
    dict has no item at all: no entry, or only empty entries. *)
Theorem display_info_iff can_open d w :
  snd (display_compatibility can_open d w) = [Info no_compatible_items] <->
  forall entry, In entry d -> snd entry = [].
Proof.
  unfold display_compatibility.
  destruct d as [|e0 d0] eqn:Hd.
  - simpl. split; [intros _ entry []|reflexivity].
  - rewrite <- Hd. replace (Nat.eqb (length d) 0) with false
      by (subst d; reflexivity).
    replace (match d with [] => 0 | _ :: _ => max_len (map snd d) end)
      with (max_len (map snd d)) by (subst d; reflexivity).
    simpl orb.
    destruct (Nat.eqb_spec (max_len (map snd d)) 0) as [Hz|Hnz].
    + split; [|reflexivity]. intros _ entry Hin.
      apply max_len_zero in Hz. rewrite Forall_forall in Hz.
      apply Hz. now apply in_map.
    + split.
      * intros H. subst d. destruct e0 as [category images].
        simpl in H. destruct images as [|img images].
        -- discriminate H.
        -- destruct (show_categories can_open w d0). discriminate H.
      * intros Hall. destruct Hnz. apply max_len_zero.
        rewrite Forall_forall. intros items Hi. apply in_map_iff in Hi.
        destruct Hi as (entry & <- & Hin). now apply Hall.
Qed.

(** * The search followed by the display *)

(** X16: whatever the search returns can be displayed: the display
    never raises on a result of [find_compatible_items].  It shows the
    information message when the result is empty or [top_k] is 0, and
    otherwise one block per category of the result, with a subheader
    counting the returned items. *)
Theorem search_then_display
    topk q feats labels paths cats top_k s res s' can_open w :
  topk_contract topk ->
  find_compatible_items topk q feats labels paths cats top_k s
    = (inr res, s') ->
  display_compatibility can_open res w
    = if (top_k =? 0)%Z || match res with [] => true | _ :: _ => false end
      then (inr tt, [Info no_compatible_items])
      else (inr tt, flat_map (category_block can_open w) res).
Proof.
  intros Hc H.
  assert (Hsize : forall entry, In entry res ->
            (snd entry = [] <-> top_k = 0%Z)).
  { intros [n ps] Hin. simpl.
    destruct (result_entry_size _ _ _ _ _ _ _ _ _ _ _ _ Hc H Hin)
      as (count & Hcount & Hlen).
    split.
    - intros ->. simpl in Hlen. lia.
    - intros ->. destruct ps; [reflexivity|simpl in Hlen; lia]. }
  destruct (Z.eqb_spec top_k 0) as [Hz|Hnz]; simpl.
  - apply display_unfilled. intros entry Hin. now apply Hsize.
  - destruct res as [|e0 res0] eqn:Hres; [reflexivity|].
    rewrite <- Hres in *.
    assert (Hall : forall entry, In entry res -> snd entry <> []).
    { intros entry Hin Hempty. apply Hnz. now apply (Hsize entry Hin). }
    unfold display_compatibility.
    rewrite (something_to_show res ltac:(subst res; discriminate) Hall).
    apply show_categories_returns. now apply Forall_forall.
Qed.

Lemma search_then_display_witness :
  display_compatibility Gallery.on_disk
    [("pants", ["c.jpg"; "d.jpg"]); ("tops", ["b.jpg"; "a.jpg"])] 150
  = if (5 =? 0)%Z
       || match [("pants", ["c.jpg"; "d.jpg"]); ("tops", ["b.jpg"; "a.jpg"])]
          with [] => true | _ :: _ => false end
    then (inr tt, [Info no_compatible_items])
    else (inr tt,
          flat_map (category_block Gallery.on_disk 150)
            [("pants", ["c.jpg"; "d.jpg"]); ("tops", ["b.jpg"; "a.jpg"])]).
Proof.
  apply (search_then_display topk_low [0; 1]%Q Gallery.gallery_features
           Gallery.gallery_labels Gallery.gallery_paths
           ["pants"; "hats"; "tops"; "shoes"; "pants"] 5%Z
           Gallery.gallery_state _ Gallery.gallery_state Gallery.on_disk 150).
  - exact topk_low_contract.
  - reflexivity.
Defined.

Module GalleryFacts.

Import Gallery.

(** The page for the gallery: b.jpg is not on disk. *)
Example gallery_page :
  display_compatibility on_disk
    [("pants", ["c.jpg"; "d.jpg"]); ("tops", ["b.jpg"; "a.jpg"])] 150
  = (inr tt,
     [Subheader 2 "pants"; Columns 2;
      Image 0 "c.jpg" 150; Image 1 "d.jpg" 150;
      Subheader 2 "tops"; Columns 2;
      Write 0 image_not_found; Image 1 "a.jpg" 150]).
Proof. reflexivity. Qed.

Example gallery_mixed :
  display_compatibility on_disk [("pants", ["c.jpg"]); ("tops", [])] 150
  = (inl (StreamlitAPIException invalid_column_spec),
     [Subheader 1 "pants"; Columns 1; Image 0 "c.jpg" 150;
      Subheader 0 "tops"]).
Proof. reflexivity. Qed.

End GalleryFacts.
